(** * fastinv: modular exponentiation and modular inversion

    A shallow embedding of [fastinv.cpp]: the fixed-width routines
    [bit_length], [modexp_64], [modinv_64], [modinv_64_prime], the
    arbitrary-precision loops of [modinv] and [_primeinv], and the three
    entry points [modexp], [modinv], [primeinv] that dispatch on the size of
    their operands.

    C++ [int64_t] values are integers of [Z] with the wrap-around written
    out ([wrap64]); Python integers are unbounded integers of [Z]. *)

From Stdlib Require Import ZArith Lia Bool.
From Stdlib Require Import Zmod.ZmodInv.

Local Open Scope Z_scope.

(** ** Outcomes of a C++ computation *)

(** A routine either returns, or executes an integer division the hardware
    cannot carry out (a zero divisor, or [INT64_MIN / -1]).  [OutOfFuel] is
    not an outcome of the program: it marks a run of the model whose loop
    budget was too small.  The fixed-width routines never end on it, whatever
    their [int64_t] operands, and neither do the arbitrary-precision loops
    on the operands of the theorems below. *)
Inductive outcome (A : Type) : Type :=
| Ret (x : A)
| Fault
| OutOfFuel.

Arguments Ret {A} x.
Arguments Fault {A}.
Arguments OutOfFuel {A}.

Definition bind {A B : Type} (c : outcome A) (k : A -> outcome B) : outcome B :=
  match c with
  | Ret x => k x
  | Fault => Fault
  | OutOfFuel => OutOfFuel
  end.

Notation "x <- c ;; k" := (bind c (fun x => k))
  (at level 61, c at next level, right associativity).

(** ** Fixed-width arithmetic *)

Module Int64.

Definition min_int64 : Z := - 2 ^ 63.
Definition max_int64 : Z := 2 ^ 63 - 1.

Definition in_int64 (z : Z) : Prop := min_int64 <= z <= max_int64.

(** Two's complement reduction to [w] bits. *)
Definition wrap (w : Z) (z : Z) : Z :=
  (z + 2 ^ (w - 1)) mod 2 ^ w - 2 ^ (w - 1).

Definition wrap64 : Z -> Z := wrap 64.
Definition wrap32 : Z -> Z := wrap 32.

Definition add (x y : Z) : Z := wrap64 (x + y).
Definition sub (x y : Z) : Z := wrap64 (x - y).
Definition mul (x y : Z) : Z := wrap64 (x * y).

(** [x / y] and [x % y] of C++: truncation towards zero. *)
Definition undefined_division (x y : Z) : bool :=
  (y =? 0) || ((x =? min_int64) && (y =? -1)).

Definition div (x y : Z) : outcome Z :=
  if undefined_division x y then Fault else Ret (Z.quot x y).

Definition rem (x y : Z) : outcome Z :=
  if undefined_division x y then Fault else Ret (Z.rem x y).

(** [x >> 1] on [int64_t]: arithmetic shift. *)
Definition shr1 (x : Z) : Z := Z.shiftr x 1.

(** [x << s] where [x] is an [int]: the shift is done on 32 bits and the
    count is taken modulo 32, as the x86 shift instruction does.  Counts
    outside [0, 31] are undefined in C++; [modexp_64] reaches such a count
    only in runs that never read the shifted value, or that the theorems
    below exclude. *)
Definition shl_int (x s : Z) : Z := wrap32 (Z.shiftl x (s mod 32)).

End Int64.

Import Int64.

(** ** The fixed-width routines *)

(** [int64_t bit_length(int64_t n)
      { return (n >= 2) ? bit_length(n >> 1) + 1 : 1; }] *)
Fixpoint bit_length_rec (fuel : nat) (n : Z) : outcome Z :=
  match fuel with
  | O => OutOfFuel
  | S fuel' =>
      if 2 <=? n
      then b <- bit_length_rec fuel' (shr1 n) ;; Ret (add b 1)
      else Ret 1
  end.

Definition bit_length (n : Z) : outcome Z := bit_length_rec 64 n.

(** [modexp_64]: the body of
    [for (int i = 0; i <= bits; ++i)
       { r = r * r % p; if (k & mask) r = r * g % p; mask >>= 1; }]. *)
Fixpoint modexp_64_loop (fuel : nat) (g k p bits i r mask : Z) : outcome Z :=
  match fuel with
  | O => OutOfFuel
  | S fuel' =>
      if i <=? bits then
        r1 <- rem (mul r r) p ;;
        r2 <- (if Z.land k mask =? 0 then Ret r1 else rem (mul r1 g) p) ;;
        modexp_64_loop fuel' g k p bits (wrap32 (i + 1)) r2 (shr1 mask)
      else Ret r
  end.

Definition modexp_64 (g k p : Z) : outcome Z :=
  let r := g in
  k <- rem k (sub p 1) ;;
  b <- bit_length k ;;
  let bits := sub b 2 in
  let mask := shl_int 1 bits in
  modexp_64_loop 64 g k p bits 0 r mask.

(** Loop budget of the Euclidean loops: the remainders of a division chain
    on [a] and [n] shrink fast enough for this many rounds to reach zero. *)
Definition euclid_fuel (a n : Z) : nat :=
  Z.to_nat (Z.log2 (Z.abs a) + Z.log2 (Z.abs n)) + 5.

(** [modinv_64]: the loop
    [while (r2 != 0) { q = r1 / r2;
       (t1, t2) = (t2, t1 - q * t2); (r1, r2) = (r2, r1 - q * r2); }],
    returning the last [(t1, r1)]. *)
Fixpoint modinv_64_loop (fuel : nat) (t1 t2 r1 r2 : Z) : outcome (Z * Z) :=
  match fuel with
  | O => OutOfFuel
  | S fuel' =>
      if r2 =? 0 then Ret (t1, r1)
      else
        q <- div r1 r2 ;;
        modinv_64_loop fuel' t2 (sub t1 (mul q t2)) r2 (sub r1 (mul q r2))
  end.

Definition modinv_64 (a n : Z) : outcome Z :=
  tr <- modinv_64_loop (euclid_fuel a n) 0 1 n a ;;
  let '(t1, r1) := tr in
  if 1 <? r1 then Ret 0
  else if t1 <? 0 then Ret (add t1 n)
  else Ret t1.

(** [modinv_64_prime]: the loop
    [while (c != 0) { q = a / c, r = a % c; a = c, c = r;
       old_u = u; u = w; w = old_u - q * w; }], returning [u]. *)
Fixpoint modinv_64_prime_loop (fuel : nat) (a c u w : Z) : outcome Z :=
  match fuel with
  | O => OutOfFuel
  | S fuel' =>
      if c =? 0 then Ret u
      else
        q <- div a c ;;
        r <- rem a c ;;
        modinv_64_prime_loop fuel' c r w (sub u (mul q w))
  end.

Definition modinv_64_prime (a n : Z) : outcome Z :=
  modinv_64_prime_loop (euclid_fuel a n) a n 1 0.

(** ** The Python layer *)

(** What an entry point hands back to the interpreter. *)
Inductive PyObject : Type :=
| PyLong (z : Z)
| Py_None
| NULL.

(** Number of bits of the absolute value. *)
Definition _PyLong_NumBits (z : Z) : Z :=
  if z =? 0 then 0 else Z.log2 (Z.abs z) + 1.

(** Conversion to [long long]; on overflow the C API returns [-1] (and sets
    an exception that the entry points do not look at). *)
Definition PyLong_AsLongLong (z : Z) : Z :=
  if (min_int64 <=? z) && (z <=? max_int64) then z else -1.

Definition fits_64 (z : Z) : bool := _PyLong_NumBits z <=? 64.

Definition modexp (g k p : Z) : outcome PyObject :=
  if fits_64 g && fits_64 k then
    if fits_64 p then
      result <- modexp_64 (PyLong_AsLongLong g) (PyLong_AsLongLong k)
                          (PyLong_AsLongLong p) ;;
      Ret (PyLong result)
    else Ret NULL
  else Ret NULL.

(** [_primeinv]: the prime-modulus loop on Python integers, with
    [PyNumber_Divmod] (floor division). *)
Fixpoint _primeinv_loop (fuel : nat) (a c u w : Z) : outcome Z :=
  match fuel with
  | O => OutOfFuel
  | S fuel' =>
      if c =? 0 then Ret u
      else
        let q := a / c in
        let r := a mod c in
        _primeinv_loop fuel' c r w (u - q * w)
  end.

Definition _primeinv (a n : Z) : outcome PyObject :=
  u <- _primeinv_loop (euclid_fuel a n) a n 1 0 ;; Ret (PyLong u).

Definition primeinv (a n : Z) : outcome PyObject :=
  if fits_64 a && fits_64 n then
    result <- modinv_64_prime (PyLong_AsLongLong a) (PyLong_AsLongLong n) ;;
    Ret (PyLong result)
  else _primeinv a n.

(** The arbitrary-precision branch of [modinv]: the same recurrence with
    [PyNumber_FloorDivide]; it returns [Py_None] when [r1 > 1]. *)
Fixpoint modinv_big_loop (fuel : nat) (t1 t2 r1 r2 : Z) : outcome (Z * Z) :=
  match fuel with
  | O => OutOfFuel
  | S fuel' =>
      if r2 =? 0 then Ret (t1, r1)
      else
        let q := r1 / r2 in
        modinv_big_loop fuel' t2 (t1 - q * t2) r2 (r1 - q * r2)
  end.

Definition modinv_big (ar nr : Z) : outcome PyObject :=
  tr <- modinv_big_loop (euclid_fuel ar nr) 0 1 nr ar ;;
  let '(t1, r1) := tr in
  if 1 <? r1 then Ret Py_None
  else if t1 <? 0 then Ret (PyLong (t1 + nr))
  else Ret (PyLong t1).

Definition modinv (ar nr : Z) : outcome PyObject :=
  if fits_64 ar && fits_64 nr then
    result <- modinv_64 (PyLong_AsLongLong ar) (PyLong_AsLongLong nr) ;;
    Ret (PyLong result)
  else modinv_big ar nr.

(** ** Vocabulary of the proofs *)

Definition bit_length_value (n : Z) : Z :=
  if 1 <=? n then Z.log2 n + 1 else 1.

(** Invariant of the extended Euclidean loop started on [(n, a)], once the
    remainders are ordered: the remainders decrease, the coefficients
    alternate in sign and satisfy the determinant identity, the previous
    coefficient is small, both coefficients are Bezout coefficients of their
    remainder modulo [n], and the gcd is preserved. *)
Definition euclid_inv (a n t1 t2 r1 r2 : Z) : Prop :=
  0 <= r2 < r1 /\ r1 <= n /\
  ((t1 <= 0 <= t2 /\ t2 * r1 - t1 * r2 = n /\ - t1 * (r1 + 1) <= n) \/
   (t2 <= 0 <= t1 /\ t1 * r2 - t2 * r1 = n /\ t1 * (r1 + 1) <= n)) /\
  (n | t1 * a - r1) /\ (n | t2 * a - r2) /\
  Z.gcd r1 r2 = Z.gcd a n.

(** Trial division: no integer of [[d, d + fuel)] divides [p]. *)
Fixpoint no_divisor_from (fuel : nat) (d p : Z) : bool :=
  match fuel with
  | O => true
  | S fuel' => negb (p mod d =? 0) && no_divisor_from fuel' (d + 1) p
  end.

(** What [modexp_64] keeps in [r]: the base [g] as it came, or a residue
    modulo [p]. *)
Definition running (g p r : Z) : Prop := r = g \/ 0 <= r < p.

(** * Verification *)

(** ** Machine arithmetic *)

Lemma in_int64_bounds (z : Z) :
  in_int64 z <-> -9223372036854775808 <= z <= 9223372036854775807.
Proof.
  unfold in_int64, min_int64, max_int64.
  change (2 ^ 63) with 9223372036854775808. lia.
Qed.

(** Turns every [in_int64] of the context and of the goal into its pair of
    numeric bounds, for [lia]. *)
Ltac int64_bounds :=
  repeat match goal with
         | H : in_int64 _ |- _ => apply (proj1 (in_int64_bounds _)) in H
         end;
  try apply (proj2 (in_int64_bounds _)).

Lemma wrap64_id (z : Z) : in_int64 z -> wrap64 z = z.
Proof.
  intros H. int64_bounds.
  unfold wrap64, wrap.
  change (2 ^ (64 - 1)) with 9223372036854775808.
  change (2 ^ 64) with 18446744073709551616.
  rewrite Z.mod_small; lia.
Qed.

Lemma wrap32_id (z : Z) : - 2147483648 <= z <= 2147483647 -> wrap32 z = z.
Proof.
  intros H. unfold wrap32, wrap.
  change (2 ^ (32 - 1)) with 2147483648.
  change (2 ^ 32) with 4294967296.
  rewrite Z.mod_small; lia.
Qed.

Lemma wrap64_range (z : Z) : in_int64 (wrap64 z).
Proof.
  int64_bounds. unfold wrap64, wrap.
  change (2 ^ (64 - 1)) with 9223372036854775808.
  change (2 ^ 64) with 18446744073709551616.
  pose proof (Z.mod_pos_bound (z + 9223372036854775808) 18446744073709551616).
  lia.
Qed.

Lemma div_nonneg (x y : Z) : 0 <= x -> 0 < y -> div x y = Ret (x / y).
Proof.
  intros Hx Hy. unfold div, undefined_division, min_int64.
  destruct (Z.eqb_spec y 0); [lia|].
  destruct (Z.eqb_spec y (-1)); [lia|].
  rewrite andb_false_r. simpl. rewrite Z.quot_div_nonneg by lia. reflexivity.
Qed.

Lemma rem_nonneg (x y : Z) : 0 <= x -> 0 < y -> rem x y = Ret (x mod y).
Proof.
  intros Hx Hy. unfold rem, undefined_division, min_int64.
  destruct (Z.eqb_spec y 0); [lia|].
  destruct (Z.eqb_spec y (-1)); [lia|].
  rewrite andb_false_r. simpl. rewrite Z.rem_mod_nonneg by lia. reflexivity.
Qed.

Lemma rem_defined (x y : Z) :
  y <> 0 -> ~ (x = min_int64 /\ y = -1) -> rem x y = Ret (Z.rem x y).
Proof.
  intros Hy Hmin. unfold rem, undefined_division.
  destruct (Z.eqb_spec y 0) as [|_]; [contradiction|].
  destruct (Z.eqb_spec x min_int64), (Z.eqb_spec y (-1)); try reflexivity.
  exfalso. apply Hmin. split; assumption.
Qed.

Lemma rem_in_int64 (x y : Z) : in_int64 y -> y <> 0 -> in_int64 (Z.rem x y).
Proof.
  intros Hy Hnz. pose proof (Z.rem_bound_abs x y Hnz). int64_bounds. lia.
Qed.

(** ** [bit_length] *)

Lemma bit_length_rec_S (fuel : nat) (n : Z) :
  bit_length_rec (S fuel) n =
  if 2 <=? n
  then b <- bit_length_rec fuel (shr1 n) ;; Ret (add b 1)
  else Ret 1.
Proof. reflexivity. Qed.

Lemma bit_length_rec_spec (fuel : nat) :
  forall n, n <= max_int64 -> n < 2 ^ Z.of_nat (S fuel) ->
    bit_length_rec (S fuel) n = Ret (bit_length_value n).
Proof.
  induction fuel as [|fuel IH]; intros n Hmax Hn.
  - change (2 ^ Z.of_nat 1) with 2 in Hn.
    unfold bit_length_value. simpl.
    destruct (Z.leb_spec 2 n); [lia|].
    destruct (Z.leb_spec 1 n); [|reflexivity].
    replace n with 1 by lia. reflexivity.
  - rewrite bit_length_rec_S.
    destruct (Z.leb_spec 2 n) as [H2|H2].
    + assert (Hhalf : shr1 n = n / 2).
      { unfold shr1. rewrite Z.shiftr_div_pow2 by lia. reflexivity. }
      assert (Hq : 1 <= n / 2) by (apply Z.div_le_lower_bound; lia).
      assert (Hq' : n / 2 <= n) by (apply Z.div_le_upper_bound; lia).
      rewrite Hhalf, IH.
      * cbn [bind]. f_equal. unfold bit_length_value.
        destruct (Z.leb_spec 1 (n / 2)); [|lia].
        destruct (Z.leb_spec 1 n); [|lia].
        assert (Hl : Z.log2 n = Z.log2 (n / 2) + 1).
        { rewrite <- Z.div2_div, Z.div2_spec, Z.log2_shiftr by lia.
          assert (1 <= Z.log2 n) by (apply Z.log2_le_pow2; simpl; lia).
          lia. }
        pose proof (Z.log2_lt_lin n ltac:(lia)).
        unfold add. rewrite wrap64_id; [lia|].
        assert (Hin : in_int64 n) by (unfold in_int64, min_int64 in *; lia).
        pose proof (Z.log2_nonneg (n / 2)). int64_bounds. lia.
      * lia.
      * rewrite Nat2Z.inj_succ, Z.pow_succ_r in Hn by lia.
        apply Z.div_lt_upper_bound; lia.
    + unfold bit_length_value.
      destruct (Z.leb_spec 1 n); [|reflexivity].
      replace n with 1 by lia. reflexivity.
Qed.

(** C9. [bit_length] returns on every [int64_t] input: for [n >= 1] the
    result is [floor(log2 n) + 1], the position of the most significant set
    bit, and for [n <= 0] it is 1. *)
Theorem bit_length_spec (n : Z) :
  in_int64 n ->
  bit_length n = Ret (if 1 <=? n then Z.log2 n + 1 else 1).
Proof.
  intros Hin. apply (bit_length_rec_spec 63 n); [apply Hin|].
  int64_bounds.
  change (2 ^ Z.of_nat 64) with 18446744073709551616. lia.
Qed.

Lemma bit_length_spec_witness :
  in_int64 1000 /\ bit_length 1000 = Ret 10.
Proof.
  split.
  - apply in_int64_bounds. lia.
  - apply (bit_length_spec 1000). apply in_int64_bounds. lia.
Defined.

(** ** The extended Euclidean recurrence *)

Section Euclid.

Variables a n : Z.

Lemma euclid_inv_init : 0 <= a < n -> euclid_inv a n 0 1 n a.
Proof.
  intros Ha. unfold euclid_inv.
  split; [lia|]. split; [lia|]. split; [left; lia|].
  split; [exists (-1); lia|]. split; [exists 0; lia|].
  apply Z.gcd_comm.
Qed.

Lemma euclid_inv_coeff_bounds t1 t2 r1 r2 :
  euclid_inv a n t1 t2 r1 r2 -> - n <= t1 <= n /\ - n <= t2 <= n.
Proof.
  intros (Hr & Hn & Hs & _). destruct Hs as [(Hs & Hd & Hb)|(Hs & Hd & Hb)]; nia.
Qed.

Lemma euclid_inv_step t1 t2 r1 r2 :
  euclid_inv a n t1 t2 r1 r2 -> r2 <> 0 ->
  let q := r1 / r2 in
  euclid_inv a n t2 (t1 - q * t2) r2 (r1 - q * r2) /\
  r1 - q * r2 = r1 mod r2 /\
  - n <= q * t2 <= n /\ 0 <= q * r2 <= r1 /\
  2 * (r2 * (r1 - q * r2)) < r1 * r2.
Proof.
  intros (Hr & Hn & Hs & Hb1 & Hb2 & Hg) Hnz q.
  pose proof (Z.div_mod r1 r2 Hnz) as Hdm.
  pose proof (Z.mod_pos_bound r1 r2 ltac:(lia)) as Hm.
  fold q in Hdm.
  assert (Hq : 1 <= q) by nia.
  assert (Hrm : r1 - q * r2 = r1 mod r2) by lia.
  rewrite Hrm. set (m := r1 mod r2) in *.
  assert (Hinv : euclid_inv a n t2 (t1 - q * t2) r2 m).
  { unfold euclid_inv. split; [lia|]. split; [lia|]. split; [|split; [|split]].
    - destruct Hs as [(Hs & Hd & Hb)|(Hs & Hd & Hb)]; [right|left].
      + split; [nia|]. split; nia.
      + split; [nia|]. split; nia.
    - exact Hb2.
    - replace ((t1 - q * t2) * a - m)
        with ((t1 * a - r1) - q * (t2 * a - r2)) by lia.
      apply Z.divide_sub_r; [exact Hb1|].
      apply Z.divide_mul_r; exact Hb2.
    - rewrite <- Hg. unfold m.
      rewrite (Z.gcd_comm r2), Z.gcd_mod by lia. apply Z.gcd_comm. }
  split; [exact Hinv|]. split; [reflexivity|].
  pose proof (euclid_inv_coeff_bounds _ _ _ _ Hinv) as [Hc1 Hc2].
  split; [|split]; [|nia|nia].
  destruct Hs as [(Hs & Hd & Hb)|(Hs & Hd & Hb)]; nia.
Qed.

Lemma euclid_inv_final t1 t2 r1 :
  euclid_inv a n t1 t2 r1 0 ->
  r1 = Z.gcd a n /\ (n | t1 * a - r1) /\ - n <= 2 * t1 <= n.
Proof.
  intros (Hr & Hn & Hs & Hb1 & _ & Hg).
  split; [|split; [exact Hb1|]].
  - rewrite <- Hg, Z.gcd_0_r, Z.abs_eq; lia.
  - destruct Hs as [(Hs & Hd & Hb)|(Hs & Hd & Hb)]; nia.
Qed.

(** *** The arbitrary-precision loop *)

Lemma modinv_big_loop_S fuel t1 t2 r1 r2 :
  modinv_big_loop (S fuel) t1 t2 r1 r2 =
  if r2 =? 0 then Ret (t1, r1)
  else modinv_big_loop fuel t2 (t1 - r1 / r2 * t2) r2 (r1 - r1 / r2 * r2).
Proof. reflexivity. Qed.

(** Under the invariant the loop returns once the budget exceeds the
    binary size of [r1 * r2], and the invariant holds where it stops. *)
Lemma modinv_big_loop_spec fuel :
  forall t1 t2 r1 r2,
    euclid_inv a n t1 t2 r1 r2 ->
    r1 * r2 < 2 ^ Z.of_nat fuel ->
    exists t1' t2' r1',
      modinv_big_loop (S fuel) t1 t2 r1 r2 = Ret (t1', r1') /\
      euclid_inv a n t1' t2' r1' 0.
Proof.
  induction fuel as [|fuel IH]; intros t1 t2 r1 r2 Hinv Hsz;
    rewrite modinv_big_loop_S; destruct (Z.eqb_spec r2 0) as [->|Hnz];
    try (exists t1, t2, r1; split; [reflexivity|exact Hinv]).
  - exfalso. destruct Hinv as (Hr & _). change (2 ^ Z.of_nat 0) with 1 in Hsz.
    nia.
  - destruct (euclid_inv_step _ _ _ _ Hinv Hnz) as (Hinv' & _ & _ & _ & Hdec).
    apply IH; [exact Hinv'|].
    rewrite Nat2Z.inj_succ, Z.pow_succ_r in Hsz by lia. lia.
Qed.

(** *** The fixed-width loop computes what the exact loop computes *)

Lemma modinv_64_loop_S fuel t1 t2 r1 r2 :
  modinv_64_loop (S fuel) t1 t2 r1 r2 =
  if r2 =? 0 then Ret (t1, r1)
  else q <- div r1 r2 ;;
       modinv_64_loop fuel t2 (sub t1 (mul q t2)) r2 (sub r1 (mul q r2)).
Proof. reflexivity. Qed.

Hypothesis n_fits : n <= max_int64.

Lemma small_in_int64 z : - n <= z <= n -> in_int64 z.
Proof.
  intros Hz. assert (Hn : in_int64 n) by (unfold in_int64, min_int64 in *; lia).
  int64_bounds. lia.
Qed.

Lemma euclid_step_64 t1 t2 r1 r2 :
  euclid_inv a n t1 t2 r1 r2 -> r2 <> 0 ->
  div r1 r2 = Ret (r1 / r2) /\
  sub t1 (mul (r1 / r2) t2) = t1 - r1 / r2 * t2 /\
  sub r1 (mul (r1 / r2) r2) = r1 - r1 / r2 * r2.
Proof.
  intros Hinv Hnz.
  destruct (euclid_inv_step _ _ _ _ Hinv Hnz) as (Hinv' & Hm & Hqt & Hqr & _).
  pose proof (euclid_inv_coeff_bounds _ _ _ _ Hinv') as [_ Ht2'].
  pose proof Hinv as (Hr & Hn & _).
  split; [apply div_nonneg; lia|].
  unfold sub, mul.
  rewrite (wrap64_id (r1 / r2 * t2)) by (apply small_in_int64; lia).
  rewrite (wrap64_id (r1 / r2 * r2)) by (apply small_in_int64; lia).
  split; apply wrap64_id, small_in_int64; lia.
Qed.

Lemma modinv_64_loop_exact fuel :
  forall t1 t2 r1 r2,
    euclid_inv a n t1 t2 r1 r2 ->
    modinv_64_loop fuel t1 t2 r1 r2 = modinv_big_loop fuel t1 t2 r1 r2.
Proof.
  induction fuel as [|fuel IH]; intros t1 t2 r1 r2 Hinv; [reflexivity|].
  rewrite modinv_64_loop_S, modinv_big_loop_S.
  destruct (Z.eqb_spec r2 0) as [->|Hnz]; [reflexivity|].
  destruct (euclid_step_64 _ _ _ _ Hinv Hnz) as (Hd & Ht & Hr).
  rewrite Hd. cbn [bind]. rewrite Ht, Hr. apply IH.
  apply (euclid_inv_step _ _ _ _ Hinv Hnz).
Qed.

End Euclid.

(** ** Running the Euclidean loops from their initial state *)

Lemma cong_of_divide (n x y : Z) : (n | x - y) -> x mod n = y mod n.
Proof.
  intros [k Hk]. replace x with (y + k * n) by lia. apply Z_mod_plus_full.
Qed.

Lemma divide_of_cong (n x y : Z) : n <> 0 -> x mod n = y mod n -> (n | x - y).
Proof.
  intros Hn H. exists (x / n - y / n).
  pose proof (Z.div_mod x n Hn). pose proof (Z.div_mod y n Hn). lia.
Qed.

Lemma lt_pow2_log2 (x : Z) : 0 <= x -> x < 2 ^ (Z.log2 x + 1).
Proof.
  intros Hx. destruct (Z.eq_dec x 0) as [->|Hnz]; [reflexivity|].
  apply Z.log2_spec. lia.
Qed.

Lemma mul_lt_pow2 (x y i j : Z) :
  0 <= i -> 0 <= j -> 0 <= x < 2 ^ i -> 0 <= y < 2 ^ j -> x * y < 2 ^ (i + j).
Proof.
  intros Hi Hj Hx Hy. rewrite Z.pow_add_r by lia.
  apply Z.mul_lt_mono_nonneg; lia.
Qed.

Lemma pow2_le_mono (i j : Z) : 0 <= i <= j -> 2 ^ i <= 2 ^ j.
Proof. intros H. apply Z.pow_le_mono_r; lia. Qed.

Lemma modinv_big_loop_more fuel :
  forall t1 t2 r1 r2 res,
    modinv_big_loop fuel t1 t2 r1 r2 = Ret res ->
    modinv_big_loop (S fuel) t1 t2 r1 r2 = Ret res.
Proof.
  induction fuel as [|fuel IH]; intros t1 t2 r1 r2 res H; [discriminate|].
  rewrite modinv_big_loop_S in *.
  destruct (r2 =? 0); [exact H|]. apply IH, H.
Qed.

(** After the round that swaps [n] and a larger [a], and the round that
    reduces [a] modulo [n], the loop is in an ordered state. *)
Lemma euclid_inv_reduced (a n : Z) :
  1 <= n < a -> euclid_inv a n 0 1 n (a - a / n * n).
Proof.
  intros Han.
  assert (Hm : a - a / n * n = a mod n) by (rewrite Z.mod_eq; lia).
  pose proof (Z.mod_pos_bound a n ltac:(lia)) as Hb.
  rewrite Hm. unfold euclid_inv.
  split; [lia|]. split; [lia|]. split; [left; lia|].
  split; [exists (-1); lia|]. split; [exists (a / n); lia|].
  rewrite Z.gcd_comm, Z.gcd_mod by lia. apply Z.gcd_comm.
Qed.

Lemma modinv_big_loop_run (a n : Z) (fuel : nat) :
  0 <= a -> 1 <= n -> a <> n ->
  Z.log2 a + Z.log2 n + 3 < Z.of_nat fuel ->
  exists t1 t2 r1,
    modinv_big_loop fuel 0 1 n a = Ret (t1, r1) /\ euclid_inv a n t1 t2 r1 0.
Proof.
  intros Ha Hn Hne Hfuel.
  pose proof (Z.log2_nonneg a) as Hla. pose proof (Z.log2_nonneg n) as Hln.
  pose proof (lt_pow2_log2 a Ha) as Hpa.
  pose proof (lt_pow2_log2 n ltac:(lia)) as Hpn.
  destruct fuel as [|f1]; [simpl in Hfuel; lia|].
  destruct (Z.lt_ge_cases a n) as [Hlt|Hge].
  - apply modinv_big_loop_spec; [apply euclid_inv_init; lia|].
    apply Z.lt_le_trans with (2 ^ ((Z.log2 n + 1) + (Z.log2 a + 1))).
    + apply mul_lt_pow2; lia.
    + apply pow2_le_mono. lia.
  - destruct f1 as [|[|f3]]; [simpl in Hfuel; lia|simpl in Hfuel; lia|].
    rewrite 2!modinv_big_loop_S.
    destruct (Z.eqb_spec a 0) as [|_]; [lia|].
    rewrite (Z.div_small n a) by lia.
    replace (0 - 0 * 1) with 0 by lia. replace (n - 0 * a) with n by lia.
    destruct (Z.eqb_spec n 0) as [|_]; [lia|].
    replace (1 - a / n * 0) with 1 by lia.
    apply modinv_big_loop_spec; [apply euclid_inv_reduced; lia|].
    assert (Hm : a - a / n * n = a mod n) by (rewrite Z.mod_eq; lia).
    pose proof (Z.mod_pos_bound a n ltac:(lia)) as Hb.
    pose proof (Z.div_mod a n ltac:(lia)) as Hdm.
    assert (Hq : 1 <= a / n) by (apply Z.div_le_lower_bound; lia).
    rewrite Hm.
    apply Z.lt_le_trans with (2 ^ ((Z.log2 n + 1) + Z.log2 a)).
    + apply mul_lt_pow2; try lia. split; [lia|].
      rewrite Z.pow_add_r in Hpa by lia. change (2 ^ 1) with 2 in Hpa. nia.
    + apply pow2_le_mono. lia.
Qed.

Lemma modinv_64_loop_start (a n : Z) (fuel : nat) :
  0 <= a <= max_int64 -> 1 <= n <= max_int64 ->
  modinv_64_loop fuel 0 1 n a = modinv_big_loop fuel 0 1 n a.
Proof.
  intros Ha Hn.
  assert (Hia : in_int64 a) by (unfold in_int64, min_int64 in *; lia).
  assert (Hin : in_int64 n) by (unfold in_int64, min_int64 in *; lia).
  destruct (Z.lt_trichotomy a n) as [Hlt|[->|Hgt]].
  - apply (modinv_64_loop_exact a n); [lia|apply euclid_inv_init; lia].
  - destruct fuel as [|[|f]]; try reflexivity;
      rewrite modinv_64_loop_S, modinv_big_loop_S;
      (destruct (Z.eqb_spec n 0) as [|_]; [lia|]);
      rewrite div_nonneg by lia; cbn [bind];
      rewrite Z.div_same by lia; unfold sub, mul;
      rewrite !Z.mul_1_l; rewrite (wrap64_id n Hin), Z.sub_diag;
      reflexivity.
  - destruct fuel as [|[|f]]; try reflexivity;
      rewrite modinv_64_loop_S, modinv_big_loop_S;
      (destruct (Z.eqb_spec a 0) as [|_]; [lia|]);
      rewrite div_nonneg by lia; cbn [bind];
      rewrite (Z.div_small n a) by lia; unfold sub, mul;
      rewrite !Z.mul_0_l; change (wrap64 0) with 0;
      rewrite !Z.sub_0_r; rewrite (wrap64_id n Hin); try reflexivity.
    rewrite modinv_64_loop_S, modinv_big_loop_S.
    destruct (Z.eqb_spec n 0) as [|_]; [lia|].
    rewrite div_nonneg by lia; cbn [bind].
    pose proof (Z.mod_pos_bound a n ltac:(lia)) as Hb.
    pose proof (Z.div_mod a n ltac:(lia)) as Hdm.
    assert (Hq : 0 <= a / n) by (apply Z.div_pos; lia).
    unfold sub, mul. rewrite Z.mul_0_r. change (wrap64 0) with 0.
    rewrite Z.sub_0_r. change (wrap64 1) with 1.
    rewrite (wrap64_id (a / n * n)) by (int64_bounds; nia).
    rewrite (wrap64_id (a - a / n * n)) by (int64_bounds; nia).
    replace (1 - a / n * 0) with 1 by lia.
    apply (modinv_64_loop_exact a n); [lia|apply euclid_inv_reduced; lia].
Qed.

Lemma euclid_fuel_bound (a n : Z) :
  Z.log2 (Z.abs a) + Z.log2 (Z.abs n) + 4 < Z.of_nat (euclid_fuel a n).
Proof.
  unfold euclid_fuel.
  pose proof (Z.log2_nonneg (Z.abs a)). pose proof (Z.log2_nonneg (Z.abs n)).
  rewrite Nat2Z.inj_add, Z2Nat.id by lia. simpl. lia.
Qed.

Lemma euclid_fuel_enough (a n : Z) :
  0 <= a -> 0 <= n -> Z.log2 a + Z.log2 n + 4 < Z.of_nat (euclid_fuel a n).
Proof.
  intros Ha Hn. pose proof (euclid_fuel_bound a n) as H.
  rewrite !Z.abs_eq in H by assumption. exact H.
Qed.

Lemma euclid_fuel_S (a n : Z) : exists fuel, euclid_fuel a n = S (S fuel).
Proof.
  exists (Z.to_nat (Z.log2 (Z.abs a) + Z.log2 (Z.abs n)) + 3)%nat.
  unfold euclid_fuel. lia.
Qed.

(** With equal operands the loop stops after one round, on [(1, n)]. *)
Lemma modinv_big_loop_same (n : Z) :
  1 <= n -> modinv_big_loop (euclid_fuel n n) 0 1 n n = Ret (1, n).
Proof.
  intros Hn. destruct (euclid_fuel_S n n) as [fuel ->].
  rewrite 2!modinv_big_loop_S.
  destruct (Z.eqb_spec n 0) as [|_]; [lia|].
  rewrite Z.div_same by lia.
  replace (n - 1 * n) with 0 by lia. reflexivity.
Qed.

(** ** Dispatch on the operand size *)

Lemma fits_64_small (z : Z) : 0 <= z <= max_int64 -> fits_64 z = true.
Proof.
  intros Hz. unfold fits_64, _PyLong_NumBits.
  destruct (Z.eqb_spec z 0) as [|Hnz]; [reflexivity|].
  apply Z.leb_le. rewrite Z.abs_eq by lia.
  enough (Z.log2 z < 63) by lia.
  apply Z.log2_lt_pow2; [lia|]. unfold max_int64 in Hz. lia.
Qed.

Lemma fits_64_large (z : Z) : 2 ^ 64 <= z -> fits_64 z = false.
Proof.
  intros Hz. assert (0 < z) by (assert (0 < 2 ^ 64) by reflexivity; lia).
  unfold fits_64, _PyLong_NumBits.
  destruct (Z.eqb_spec z 0) as [|Hnz]; [lia|].
  apply Z.leb_gt. rewrite Z.abs_eq by lia.
  enough (64 <= Z.log2 z) by lia.
  apply Z.log2_le_pow2; lia.
Qed.

Lemma PyLong_AsLongLong_small (z : Z) :
  0 <= z <= max_int64 -> PyLong_AsLongLong z = z.
Proof.
  intros Hz. unfold PyLong_AsLongLong.
  destruct (Z.leb_spec min_int64 z) as [_|H]; [|unfold min_int64 in H; lia].
  destruct (Z.leb_spec z max_int64) as [_|H]; [reflexivity|lia].
Qed.

Lemma modinv_small (a n : Z) :
  0 <= a <= max_int64 -> 0 <= n <= max_int64 ->
  modinv a n = (result <- modinv_64 a n ;; Ret (PyLong result)).
Proof.
  intros Ha Hn. unfold modinv.
  rewrite !fits_64_small, !PyLong_AsLongLong_small by assumption. reflexivity.
Qed.

Lemma modinv_large (a n : Z) :
  2 ^ 64 <= a \/ 2 ^ 64 <= n -> modinv a n = modinv_big a n.
Proof.
  intros [H|H]; unfold modinv; rewrite (fits_64_large _ H);
    [|rewrite andb_false_r]; reflexivity.
Qed.

(** ** [modinv]: inverses *)

Lemma gcd_same_gt_1 (a n : Z) : 0 <= a -> 1 < Z.gcd a n -> a = n -> 1 < n.
Proof. intros Ha Hg ->. rewrite Z.gcd_diag, Z.abs_eq in Hg; lia. Qed.

(** The arbitrary-precision loop on operands without an inverse stops on a
    remainder above 1, on operands with one on a Bezout coefficient. *)
Lemma modinv_big_loop_result (a n : Z) :
  0 <= a -> 1 <= n -> a <> n \/ 1 < n ->
  exists t1 r1,
    modinv_big_loop (euclid_fuel a n) 0 1 n a = Ret (t1, r1) /\
    r1 = Z.gcd a n /\
    (r1 = 1 -> (n | t1 * a - 1) /\ - n <= 2 * t1 <= n).
Proof.
  intros Ha Hn Hne.
  destruct (Z.eq_dec a n) as [->|Hneq].
  - exists 1, n. rewrite modinv_big_loop_same by lia.
    rewrite Z.gcd_diag, Z.abs_eq by lia.
    split; [reflexivity|]. split; [reflexivity|]. lia.
  - destruct (modinv_big_loop_run a n (euclid_fuel a n) Ha Hn Hneq)
      as (t1 & t2 & r1 & Hrun & Hinv).
    { pose proof (euclid_fuel_enough a n). lia. }
    destruct (euclid_inv_final _ _ _ _ _ Hinv) as (Hg & Hb & Ht).
    exists t1, r1. split; [exact Hrun|]. split; [exact Hg|].
    intros H1. rewrite H1 in Hb. split; assumption.
Qed.

Lemma modinv_64_loop_result (a n : Z) :
  0 <= a <= max_int64 -> 1 <= n <= max_int64 -> a <> n \/ 1 < n ->
  exists t1 r1,
    modinv_64_loop (euclid_fuel a n) 0 1 n a = Ret (t1, r1) /\
    modinv_big_loop (euclid_fuel a n) 0 1 n a = Ret (t1, r1) /\
    r1 = Z.gcd a n /\
    (r1 = 1 -> (n | t1 * a - 1) /\ - n <= 2 * t1 <= n).
Proof.
  intros Ha Hn Hne.
  destruct (modinv_big_loop_result a n) as (t1 & r1 & Hrun & Hres); try lia.
  exists t1, r1. rewrite modinv_64_loop_start by assumption.
  split; [exact Hrun|]. split; [exact Hrun|]. exact Hres.
Qed.

(** What [modinv_64] makes of the pair the loop stops on. *)
Lemma modinv_64_of_loop (a n t1 r1 : Z) :
  modinv_64_loop (euclid_fuel a n) 0 1 n a = Ret (t1, r1) ->
  modinv_64 a n =
  if 1 <? r1 then Ret 0 else if t1 <? 0 then Ret (add t1 n) else Ret t1.
Proof. intros H. unfold modinv_64. rewrite H. reflexivity. Qed.

Lemma modinv_big_of_loop (a n t1 r1 : Z) :
  modinv_big_loop (euclid_fuel a n) 0 1 n a = Ret (t1, r1) ->
  modinv_big a n =
  if 1 <? r1 then Ret Py_None
  else if t1 <? 0 then Ret (PyLong (t1 + n)) else Ret (PyLong t1).
Proof. intros H. unfold modinv_big. rewrite H. reflexivity. Qed.

(** The normalised coefficient is the inverse, and the only one. *)
Lemma normalised_inverse (a n t1 : Z) :
  1 <= n -> (n | t1 * a - 1) -> - n <= 2 * t1 <= n ->
  let t := if t1 <? 0 then t1 + n else t1 in
  0 <= t < n /\ (a * t) mod n = 1 mod n /\
  (forall t', 0 <= t' < n -> (a * t') mod n = 1 mod n -> t' = t).
Proof.
  intros Hn Hb Ht t.
  assert (Hrange : 0 <= t < n) by (unfold t; destruct (Z.ltb_spec t1 0); lia).
  assert (Hdiv : (n | a * t - 1)).
  { unfold t. destruct (Z.ltb_spec t1 0).
    - replace (a * (t1 + n) - 1) with ((t1 * a - 1) + a * n) by lia.
      apply Z.divide_add_r; [exact Hb|]. apply Z.divide_factor_r.
    - replace (a * t1) with (t1 * a) by lia. exact Hb. }
  split; [exact Hrange|]. split; [apply cong_of_divide, Hdiv|].
  intros t' Ht' Hinv'.
  apply divide_of_cong in Hinv'; [|lia].
  assert (Hd : (n | t - t')).
  { replace (t - t') with (t' * (a * t - 1) - t * (a * t' - 1)) by lia.
    apply Z.divide_sub_r; apply Z.divide_mul_r; assumption. }
  destruct Hd as [k Hk].
  assert (k = 0) by nia. lia.
Qed.

(** On non-negative operands with gcd 1, other than [a = n = 1],
    [modinv_64] returns the normalised Bezout coefficient of [a]. *)
Lemma modinv_64_value (a n : Z) :
  0 <= a <= max_int64 -> 1 <= n <= max_int64 ->
  Z.gcd a n = 1 -> ~ (a = 1 /\ n = 1) ->
  exists t1,
    (n | t1 * a - 1) /\ - n <= 2 * t1 <= n /\
    modinv_64 a n = Ret (if t1 <? 0 then t1 + n else t1) /\
    modinv a n = Ret (PyLong (if t1 <? 0 then t1 + n else t1)).
Proof.
  intros Ha Hn Hg Hne.
  assert (Hneq : a <> n \/ 1 < n).
  { destruct (Z.eq_dec a n) as [->|]; [|left; assumption].
    rewrite Z.gcd_diag, Z.abs_eq in Hg by lia. lia. }
  destruct (modinv_64_loop_result a n Ha Hn Hneq)
    as (t1 & r1 & Hrun & _ & Hr1 & Hres).
  rewrite Hg in Hr1. destruct (Hres Hr1) as [Hb Ht].
  assert (H64 : modinv_64 a n = Ret (if t1 <? 0 then t1 + n else t1)).
  { rewrite (modinv_64_of_loop _ _ _ _ Hrun), Hr1. simpl.
    destruct (Z.ltb_spec t1 0); [|reflexivity].
    unfold add. rewrite wrap64_id; [reflexivity|].
    apply (small_in_int64 n); lia. }
  exists t1. split; [exact Hb|]. split; [exact Ht|]. split; [exact H64|].
  rewrite modinv_small, H64 by lia. reflexivity.
Qed.

(** C1, as amended. For operands [0 <= a] and [0 < n] of the fixed-width
    path with [gcd(a, n) = 1], other than [a = n = 1], [mod_inv] returns the
    unique [t] of [[0, n)] with [a * t = 1 (mod n)]; so for [n = 1] every
    [a >= 0] other than 1 maps to 0. *)
Theorem modinv_inverse (a n : Z) :
  0 <= a <= max_int64 -> 1 <= n <= max_int64 ->
  Z.gcd a n = 1 -> ~ (a = 1 /\ n = 1) ->
  exists t,
    modinv_64 a n = Ret t /\ modinv a n = Ret (PyLong t) /\
    0 <= t < n /\ (a * t) mod n = 1 mod n /\
    (forall t', 0 <= t' < n -> (a * t') mod n = 1 mod n -> t' = t).
Proof.
  intros Ha Hn Hg Hne.
  destruct (modinv_64_value a n Ha Hn Hg Hne) as (t1 & Hb & Ht & H64 & Hpy).
  exists (if t1 <? 0 then t1 + n else t1).
  split; [exact H64|]. split; [exact Hpy|].
  apply (normalised_inverse a n t1); [lia|exact Hb|exact Ht].
Qed.

Lemma modinv_inverse_witness :
  exists t, modinv_64 3 11 = Ret t /\ modinv 3 11 = Ret (PyLong t) /\
            0 <= t < 11 /\ (3 * t) mod 11 = 1 mod 11 /\
            (forall t', 0 <= t' < 11 -> (3 * t') mod 11 = 1 mod 11 -> t' = t).
Proof.
  apply (modinv_inverse 3 11).
  - unfold max_int64. simpl. lia.
  - unfold max_int64. simpl. lia.
  - reflexivity.
  - lia.
Defined.

(** C1, counterexample. With a negative operand the value returned is not
    an inverse, and [mod_inv(1, 1)] is 1, outside [[0, 1)]. *)
Lemma modinv_inverse_fails :
  (Z.gcd (-3) 11 = 1 /\ modinv_64 (-3) 11 = Ret 4 /\
   (-3 * 4) mod 11 <> 1 mod 11) /\
  (Z.gcd 1 1 = 1 /\ modinv_64 1 1 = Ret 1).
Proof. repeat split; try reflexivity. discriminate. Qed.

(** C2, as amended. For operands [0 <= a], [0 < n] with [gcd(a, n) > 1]
    (so also [a = 0] with [n > 1]): on the fixed-width path [mod_inv]
    returns the ordinary integer 0, which is not an inverse of [a]; on the
    arbitrary-precision path it returns [None]. *)
Theorem modinv_no_inverse (a n : Z) :
  0 <= a -> 1 <= n -> 1 < Z.gcd a n ->
  (a <= max_int64 -> n <= max_int64 ->
   modinv_64 a n = Ret 0 /\ modinv a n = Ret (PyLong 0) /\
   (a * 0) mod n <> 1 mod n) /\
  (2 ^ 64 <= a \/ 2 ^ 64 <= n -> modinv a n = Ret Py_None).
Proof.
  intros Ha Hn Hg.
  assert (Hneq : a <> n \/ 1 < n).
  { destruct (Z.eq_dec a n) as [e|]; [right|left; assumption].
    apply (gcd_same_gt_1 a n); assumption. }
  split.
  - intros Hamax Hnmax.
    destruct (modinv_64_loop_result a n ltac:(lia) ltac:(lia) Hneq)
      as (t1 & r1 & Hrun & _ & Hr1 & _).
    assert (H64 : modinv_64 a n = Ret 0).
    { rewrite (modinv_64_of_loop _ _ _ _ Hrun), Hr1.
      destruct (Z.ltb_spec 1 (Z.gcd a n)); [reflexivity|lia]. }
    split; [exact H64|]. split.
    + rewrite modinv_small, H64 by lia. reflexivity.
    + assert (1 < n).
      { destruct (Z.eq_dec n 1) as [->|]; [|lia].
        rewrite Z.gcd_1_r in Hg. lia. }
      rewrite Z.mul_0_r, Z.mod_0_l, Z.mod_1_l by lia. lia.
  - intros Hbig. rewrite modinv_large by assumption.
    destruct (modinv_big_loop_result a n Ha Hn Hneq)
      as (t1 & r1 & Hrun & Hr1 & _).
    rewrite (modinv_big_of_loop _ _ _ _ Hrun), Hr1.
    destruct (Z.ltb_spec 1 (Z.gcd a n)); [reflexivity|lia].
Qed.

Lemma modinv_no_inverse_witness :
  (modinv_64 6 9 = Ret 0 /\ modinv 6 9 = Ret (PyLong 0) /\
   (6 * 0) mod 9 <> 1 mod 9) /\
  modinv (3 * 2 ^ 64) (9 * 2 ^ 64) = Ret Py_None.
Proof.
  split.
  - apply (modinv_no_inverse 6 9).
    + lia.
    + lia.
    + reflexivity.
    + unfold max_int64. simpl. lia.
    + unfold max_int64. simpl. lia.
  - apply (modinv_no_inverse (3 * 2 ^ 64) (9 * 2 ^ 64)).
    + simpl. lia.
    + simpl. lia.
    + reflexivity.
    + left. simpl. lia.
Defined.

(** C2, counterexample. [mod_inv(6, 9)], with gcd 3, returns the integer 0
    rather than a value that is not a number. *)
Lemma modinv_no_inverse_is_integer :
  Z.gcd 6 9 = 3 /\ modinv 6 9 = Ret (PyLong 0) /\ modinv 6 9 <> Ret Py_None.
Proof. repeat split; try reflexivity. discriminate. Qed.

Lemma inverse_coprime (a n t : Z) :
  1 <= n -> (a * t) mod n = 1 mod n -> Z.gcd t n = 1.
Proof.
  intros Hn Hinv. apply divide_of_cong in Hinv; [|lia].
  destruct Hinv as [k Hk]. apply Z.bezout_1_gcd.
  exists a, (- k). lia.
Qed.

(** C8, as amended. For operands [0 <= a] and [0 < n] of the fixed-width
    path with [gcd(a, n) = 1], other than [a = n = 1], inverting the inverse
    gives [a mod n] back. *)
Theorem modinv_round_trip (a n : Z) :
  0 <= a <= max_int64 -> 1 <= n <= max_int64 ->
  Z.gcd a n = 1 -> ~ (a = 1 /\ n = 1) ->
  exists t,
    modinv_64 a n = Ret t /\ modinv_64 t n = Ret (a mod n) /\
    modinv a n = Ret (PyLong t) /\ modinv t n = Ret (PyLong (a mod n)).
Proof.
  intros Ha Hn Hg Hne.
  destruct (modinv_64_value a n Ha Hn Hg Hne) as (t1 & Hb & Ht & H64 & Hpy).
  destruct (normalised_inverse a n t1 ltac:(lia) Hb Ht) as (Hrange & Hinv & _).
  set (t := if t1 <? 0 then t1 + n else t1) in *.
  destruct (modinv_64_value t n) as (s1 & Hb' & Ht' & H64' & Hpy');
    [lia|lia|apply (inverse_coprime a); [lia|exact Hinv]|lia|].
  destruct (normalised_inverse t n s1 ltac:(lia) Hb' Ht') as (_ & _ & Huniq).
  assert (Hs : a mod n = if s1 <? 0 then s1 + n else s1).
  { apply Huniq; [apply Z.mod_pos_bound; lia|].
    rewrite Z.mul_mod_idemp_r, Z.mul_comm by lia. exact Hinv. }
  exists t. rewrite Hs. repeat split; assumption.
Qed.

Lemma modinv_round_trip_witness :
  exists t,
    modinv_64 14 11 = Ret t /\ modinv_64 t 11 = Ret (14 mod 11) /\
    modinv 14 11 = Ret (PyLong t) /\ modinv t 11 = Ret (PyLong (14 mod 11)).
Proof.
  apply (modinv_round_trip 14 11).
  - unfold max_int64. simpl. lia.
  - unfold max_int64. simpl. lia.
  - reflexivity.
  - lia.
Defined.

(** C8, counterexample. From [a = -3] and [n = 11] the round trip ends on 3,
    which is not [a mod n = 8]; from [a = n = 1] it ends on 1, not on 0. *)
Lemma modinv_round_trip_fails :
  (Z.gcd (-3) 11 = 1 /\ modinv_64 (-3) 11 = Ret 4 /\
   modinv_64 4 11 = Ret 3 /\ (-3) mod 11 = 8) /\
  (Z.gcd 1 1 = 1 /\ modinv_64 1 1 = Ret 1 /\ 1 mod 1 = 0).
Proof. repeat split; reflexivity. Qed.

(** ** The fixed-width Euclidean loops on every operand *)

Lemma undefined_division_false (x y : Z) :
  undefined_division x y = false -> y <> 0 /\ ~ (x = min_int64 /\ y = -1).
Proof.
  unfold undefined_division. intros H.
  apply orb_false_elim in H as [Hy Hm]. apply Z.eqb_neq in Hy.
  split; [exact Hy|]. intros [-> ->]. discriminate.
Qed.

Lemma quot_mul_le (x y : Z) : y <> 0 -> Z.abs (Z.quot x y * y) <= Z.abs x.
Proof.
  intros Hy. rewrite Z.abs_mul, <- Z.quot_abs, Z.mul_comm by assumption.
  apply Z.mul_quot_le; lia.
Qed.

(** The remainder is computed as [r1 - q * r2] without overflow. *)
Lemma sub_mul_quot (r1 r2 : Z) :
  in_int64 r1 -> in_int64 r2 -> r2 <> 0 ->
  sub r1 (mul (Z.quot r1 r2) r2) = Z.rem r1 r2.
Proof.
  intros H1 H2 Hnz.
  pose proof (quot_mul_le r1 r2 Hnz) as Hq.
  pose proof (Z.quot_rem' r1 r2) as Hqr.
  pose proof (Z.rem_bound_abs r1 r2 Hnz) as Hr.
  pose proof (Z.rem_sign_mul r1 r2 Hnz) as Hs.
  unfold sub, mul.
  assert (Hin : in_int64 (Z.quot r1 r2 * r2)).
  { int64_bounds. nia. }
  rewrite (wrap64_id _ Hin).
  replace (r1 - Z.quot r1 r2 * r2) with (Z.rem r1 r2) by lia.
  apply wrap64_id, rem_in_int64; assumption.
Qed.

Lemma mod_halves (x y : Z) : 0 < y <= x -> 2 * (x mod y) < x.
Proof.
  intros H. pose proof (Z.div_mod x y ltac:(lia)).
  pose proof (Z.mod_pos_bound x y ltac:(lia)).
  assert (1 <= x / y) by (apply Z.div_le_lower_bound; lia). nia.
Qed.

Lemma rem_halves (x y : Z) :
  y <> 0 -> Z.abs y <= Z.abs x -> 2 * Z.abs (Z.rem x y) < Z.abs x.
Proof.
  intros Hy Hle. rewrite <- Z.rem_abs, Z.rem_mod_nonneg by lia.
  apply mod_halves. lia.
Qed.

Lemma modinv_64_loop_total fuel :
  forall t1 t2 r1 r2,
    in_int64 r1 -> in_int64 r2 -> Z.abs r2 <= Z.abs r1 ->
    Z.abs r1 * Z.abs r2 < 2 ^ Z.of_nat fuel ->
    modinv_64_loop (S fuel) t1 t2 r1 r2 <> OutOfFuel.
Proof.
  induction fuel as [|fuel IH]; intros t1 t2 r1 r2 H1 H2 Hle Hsz;
    rewrite modinv_64_loop_S; destruct (Z.eqb_spec r2 0) as [|Hnz];
    try discriminate.
  - change (2 ^ Z.of_nat 0) with 1 in Hsz. nia.
  - unfold div. destruct (undefined_division r1 r2); [discriminate|].
    cbn [bind]. rewrite sub_mul_quot by assumption.
    pose proof (Z.rem_bound_abs r1 r2 Hnz) as Hr.
    pose proof (rem_halves r1 r2 Hnz Hle) as Hh.
    apply IH; [assumption|apply rem_in_int64; assumption|lia|].
    rewrite Nat2Z.inj_succ, Z.pow_succ_r in Hsz by lia. nia.
Qed.

Lemma rem_le_abs (x y : Z) : y <> 0 -> Z.abs (Z.rem x y) <= Z.abs x.
Proof.
  intros Hy. rewrite <- Z.rem_abs, Z.rem_mod_nonneg by lia.
  apply Z.mod_le; lia.
Qed.

(** Whatever the signs of the operands, the loop budget is not exhausted. *)
Lemma modinv_64_loop_terminates (fuel : nat) (t1 t2 r1 r2 : Z) :
  in_int64 r1 -> in_int64 r2 ->
  Z.log2 (Z.abs r1) + Z.log2 (Z.abs r2) + 3 < Z.of_nat fuel ->
  modinv_64_loop fuel t1 t2 r1 r2 <> OutOfFuel.
Proof.
  intros H1 H2 Hfuel.
  pose proof (Z.log2_nonneg (Z.abs r1)). pose proof (Z.log2_nonneg (Z.abs r2)).
  destruct fuel as [|[|fuel]]; [simpl in Hfuel; lia|simpl in Hfuel; lia|].
  rewrite modinv_64_loop_S. destruct (Z.eqb_spec r2 0) as [|Hnz];
    [discriminate|].
  unfold div. destruct (undefined_division r1 r2); [discriminate|].
  cbn [bind]. rewrite sub_mul_quot by assumption.
  pose proof (Z.rem_bound_abs r1 r2 Hnz) as Hr.
  pose proof (rem_le_abs r1 r2 Hnz) as Hr'.
  pose proof (lt_pow2_log2 (Z.abs r1) ltac:(lia)) as Hp1.
  pose proof (lt_pow2_log2 (Z.abs r2) ltac:(lia)) as Hp2.
  apply modinv_64_loop_total;
    [assumption|apply rem_in_int64; assumption|lia|].
  apply Z.le_lt_trans with (Z.abs r2 * Z.abs r1); [nia|].
  apply Z.lt_le_trans
    with (2 ^ ((Z.log2 (Z.abs r2) + 1) + (Z.log2 (Z.abs r1) + 1))).
  - apply mul_lt_pow2; lia.
  - apply pow2_le_mono. rewrite !Nat2Z.inj_succ in Hfuel. lia.
Qed.

Lemma modinv_64_returns_or_faults (a n : Z) :
  in_int64 a -> in_int64 n ->
  modinv_64 a n = Fault \/ exists t, modinv_64 a n = Ret t.
Proof.
  intros Ha Hn. unfold modinv_64.
  pose proof (modinv_64_loop_terminates (euclid_fuel a n) 0 1 n a Hn Ha) as H.
  pose proof (euclid_fuel_bound a n).
  destruct (modinv_64_loop (euclid_fuel a n) 0 1 n a) as [[t1 r1]| |].
  - right. cbn [bind]. destruct (1 <? r1); [eexists; reflexivity|].
    destruct (t1 <? 0); eexists; reflexivity.
  - left. reflexivity.
  - exfalso. apply H; [lia|reflexivity].
Qed.

Lemma modinv_64_prime_loop_S fuel a c u w :
  modinv_64_prime_loop (S fuel) a c u w =
  if c =? 0 then Ret u
  else q <- div a c ;; r <- rem a c ;;
       modinv_64_prime_loop fuel c r w (sub u (mul q w)).
Proof. reflexivity. Qed.

(** [modinv_64_prime] runs the loop of [modinv_64] from the state
    [(t1, t2, r1, r2) = (1, 0, a, n)] and returns its first coefficient as
    it is. *)
Lemma modinv_64_prime_loop_as_modinv fuel :
  forall a c u w,
    in_int64 a -> in_int64 c ->
    modinv_64_prime_loop fuel a c u w =
    (tr <- modinv_64_loop fuel u w a c ;; Ret (fst tr)).
Proof.
  induction fuel as [|fuel IH]; intros a c u w Ha Hc; [reflexivity|].
  rewrite modinv_64_prime_loop_S, modinv_64_loop_S.
  destruct (Z.eqb_spec c 0) as [|Hnz]; [reflexivity|].
  unfold div, rem. destruct (undefined_division a c); [reflexivity|].
  cbn [bind]. rewrite sub_mul_quot by assumption.
  apply IH; [assumption|apply rem_in_int64; assumption].
Qed.

Lemma modinv_64_prime_returns_or_faults (a n : Z) :
  in_int64 a -> in_int64 n ->
  modinv_64_prime a n = Fault \/ exists u, modinv_64_prime a n = Ret u.
Proof.
  intros Ha Hn. unfold modinv_64_prime.
  rewrite modinv_64_prime_loop_as_modinv by assumption.
  pose proof (modinv_64_loop_terminates (euclid_fuel a n) 1 0 a n Ha Hn) as H.
  pose proof (euclid_fuel_bound a n).
  destruct (modinv_64_loop (euclid_fuel a n) 1 0 a n) as [[t1 r1]| |].
  - right. eexists. reflexivity.
  - left. reflexivity.
  - exfalso. apply H; [lia|reflexivity].
Qed.

(** ** The prime-modulus routines *)

Lemma _primeinv_loop_S fuel a c u w :
  _primeinv_loop (S fuel) a c u w =
  if c =? 0 then Ret u
  else _primeinv_loop fuel c (a mod c) w (u - a / c * w).
Proof. reflexivity. Qed.

(** The prime-modulus loops run the recurrence of [modinv], with the roles
    [(a, c, u, w) = (r1, r2, t1, t2)], and keep its first coefficient. *)
Lemma _primeinv_loop_exact fuel :
  forall a c u w,
    _primeinv_loop fuel a c u w =
    (tr <- modinv_big_loop fuel u w a c ;; Ret (fst tr)).
Proof.
  induction fuel as [|fuel IH]; intros a c u w; [reflexivity|].
  rewrite _primeinv_loop_S, modinv_big_loop_S.
  destruct (Z.eqb_spec c 0) as [|Hnz]; [reflexivity|].
  rewrite IH. replace (a - a / c * c) with (a mod c); [reflexivity|].
  rewrite Z.mod_eq by assumption. lia.
Qed.

(** Started below the modulus, both prime-modulus loops return the
    coefficient on which the loop of [modinv] stops. *)
Lemma prime_loops_run (a n : Z) :
  0 <= a < n ->
  exists t1 r1,
    modinv_big_loop (euclid_fuel a n) 0 1 n a = Ret (t1, r1) /\
    _primeinv_loop (euclid_fuel a n) a n 1 0 = Ret t1 /\
    (n <= max_int64 -> modinv_64_prime a n = Ret t1).
Proof.
  intros Ha.
  destruct (euclid_fuel_S a n) as [fuel Hfuel].
  pose proof (euclid_fuel_enough a n ltac:(lia) ltac:(lia)) as Henough.
  rewrite Hfuel, !Nat2Z.inj_succ in Henough.
  destruct (modinv_big_loop_run a n (S fuel)) as (t1 & t2 & r1 & Hrun & _);
    try lia.
  exists t1, r1. unfold modinv_64_prime. rewrite Hfuel.
  split; [apply modinv_big_loop_more, Hrun|]. split.
  - rewrite _primeinv_loop_S.
    destruct (Z.eqb_spec n 0) as [|_]; [lia|].
    rewrite Z.div_small, Z.mod_small by lia.
    replace (1 - 0 * 0) with 1 by lia.
    rewrite _primeinv_loop_exact, Hrun. reflexivity.
  - intros Hn. rewrite modinv_64_prime_loop_S.
    destruct (Z.eqb_spec n 0) as [|_]; [lia|].
    rewrite div_nonneg, rem_nonneg by lia. cbn [bind].
    rewrite Z.div_small, Z.mod_small by lia.
    change (sub 1 (mul 0 0)) with 1.
    assert (Hin : in_int64 n) by (unfold in_int64, min_int64 in *; lia).
    assert (Hia : in_int64 a) by (int64_bounds; lia).
    rewrite modinv_64_prime_loop_as_modinv by assumption.
    rewrite (modinv_64_loop_exact a n) by (try apply euclid_inv_init; lia).
    rewrite Hrun. reflexivity.
Qed.

(** The fixed-width prime-modulus routine against [modinv_64]. *)
Lemma modinv_64_prime_spec (a n : Z) :
  0 < a < n -> n <= max_int64 -> Z.gcd a n = 1 ->
  exists u,
    modinv_64_prime a n = Ret u /\ primeinv a n = Ret (PyLong u) /\
    (a * u) mod n = 1 /\ - n <= 2 * u <= n /\
    modinv_64 a n = Ret (u mod n).
Proof.
  intros Ha Hn Hg.
  destruct (prime_loops_run a n ltac:(lia)) as (u & r1 & Hrun & _ & Hprime).
  specialize (Hprime Hn).
  destruct (modinv_64_loop_result a n) as (t1 & r1' & Hrun64 & Hrun' & Hr1 & Hres);
    try lia.
  rewrite Hrun in Hrun'. injection Hrun' as <- <-.
  rewrite Hg in Hr1. destruct (Hres Hr1) as [Hb Ht].
  exists u. split; [exact Hprime|]. split; [|split; [|split; [exact Ht|]]].
  - unfold primeinv.
    rewrite !fits_64_small, !PyLong_AsLongLong_small, Hprime by lia.
    reflexivity.
  - replace (a * u) with (1 + (u * a - 1)) by lia.
    destruct Hb as [k ->]. rewrite Z_mod_plus_full. apply Z.mod_1_l. lia.
  - rewrite (modinv_64_of_loop _ _ _ _ Hrun64), Hr1. simpl.
    destruct (Z.ltb_spec u 0).
    + unfold add. rewrite wrap64_id by (apply (small_in_int64 n); lia).
      f_equal. apply Z.mod_unique with (-1); lia.
    + rewrite Z.mod_small by lia. reflexivity.
Qed.

Lemma prime_coprime (a p : Z) : Z.prime p -> 0 < a < p -> Z.gcd a p = 1.
Proof.
  intros Hp Ha. rewrite Z.gcd_comm. apply Z.coprime_prime_small; [exact Hp|lia].
Qed.

Lemma no_divisor_from_sound fuel :
  forall d p, 0 < d -> no_divisor_from fuel d p = true ->
    forall x, d <= x < d + Z.of_nat fuel -> ~ (x | p).
Proof.
  induction fuel as [|fuel IH]; intros d p Hd Hcheck x Hx Hdiv; [lia|].
  cbn [no_divisor_from] in Hcheck. apply andb_prop in Hcheck as [Hhere Hrest].
  destruct (Z.eq_dec x d) as [->|Hne].
  - apply Z.mod_divide in Hdiv; [|lia].
    rewrite Hdiv in Hhere. discriminate.
  - apply (IH (d + 1) p ltac:(lia) Hrest x); [lia|exact Hdiv].
Qed.

(** A number above 1 without a divisor from 2 up to its square root is
    prime. *)
Lemma prime_by_trial_division (p : Z) (fuel : nat) :
  1 < p -> p < (2 + Z.of_nat fuel) * (2 + Z.of_nat fuel) ->
  no_divisor_from fuel 2 p = true -> Z.prime p.
Proof.
  intros Hp Hroot Hcheck. split; [exact Hp|]. intros n Hn [m Hm].
  pose proof (no_divisor_from_sound fuel 2 p ltac:(lia) Hcheck) as Hnone.
  assert (Hm1 : 1 < m < p) by nia.
  destruct (Z.lt_ge_cases n (2 + Z.of_nat fuel)) as [Hsmall|Hlarge].
  - apply (Hnone n); [lia|]. exists m. exact Hm.
  - apply (Hnone m); [nia|]. exists n. lia.
Qed.

Lemma prime_5 : Z.prime 5.
Proof. apply (prime_by_trial_division 5 1); [lia|simpl; lia|reflexivity]. Qed.

Lemma prime_11 : Z.prime 11.
Proof. apply (prime_by_trial_division 11 2); [lia|simpl; lia|reflexivity]. Qed.

Lemma prime_1000000007 : Z.prime 1000000007.
Proof.
  apply (prime_by_trial_division 1000000007 (Z.to_nat 31622)).
  - lia.
  - rewrite Z2Nat.id; lia.
  - vm_compute. reflexivity.
Qed.

(** The first prime above [2 ^ 32]. *)
Lemma prime_4294967311 : Z.prime 4294967311.
Proof.
  apply (prime_by_trial_division 4294967311 (Z.to_nat 65535)).
  - lia.
  - rewrite Z2Nat.id; lia.
  - vm_compute. reflexivity.
Qed.

(** C10. For every prime [n] of the fixed-width path and every [a] with
    [0 < a < n], [modinv_64_prime] returns a [u] with [a * u = 1 (mod n)];
    it does not bring [u] into [[0, n)], and [modinv_64_prime(2, 11)] is
    [-5]. *)
Theorem modinv_64_prime_inverse :
  (forall a n, Z.prime n -> n <= max_int64 -> 0 < a < n ->
     exists u, modinv_64_prime a n = Ret u /\ (a * u) mod n = 1) /\
  (Z.prime 11 /\ 0 < 2 < 11 /\ modinv_64_prime 2 11 = Ret (-5)).
Proof.
  split.
  - intros a n Hp Hn Ha.
    destruct (modinv_64_prime_spec a n Ha Hn (prime_coprime a n Hp Ha))
      as (u & Hu & _ & Hinv & _).
    exists u. split; assumption.
  - split; [exact prime_11|]. split; [lia|reflexivity].
Qed.

Lemma modinv_64_prime_inverse_witness :
  exists u, modinv_64_prime 3 5 = Ret u /\ (3 * u) mod 5 = 1.
Proof.
  apply (proj1 modinv_64_prime_inverse 3 5).
  - exact prime_5.
  - unfold max_int64. simpl. lia.
  - lia.
Defined.

(** C4, as amended. For every prime [p] of the fixed-width path and every
    [a] with [0 < a < p], [prime_mod_inv(a, p)] is congruent to
    [mod_inv(a, p)] modulo [p]: [mod_inv] returns [u mod p] where
    [prime_mod_inv] returns [u], which lies between [-p/2] and [p/2]. *)
Theorem primeinv_modinv_congruent (a p : Z) :
  Z.prime p -> p <= max_int64 -> 0 < a < p ->
  exists u,
    modinv_64_prime a p = Ret u /\ modinv_64 a p = Ret (u mod p) /\
    primeinv a p = Ret (PyLong u) /\ modinv a p = Ret (PyLong (u mod p)) /\
    - p <= 2 * u <= p.
Proof.
  intros Hp Hn Ha.
  destruct (modinv_64_prime_spec a p Ha Hn (prime_coprime a p Hp Ha))
    as (u & Hu & Hpy & _ & Hrange & H64).
  exists u. split; [exact Hu|]. split; [exact H64|]. split; [exact Hpy|].
  split; [|exact Hrange].
  rewrite modinv_small, H64 by lia. reflexivity.
Qed.

Lemma primeinv_modinv_congruent_witness :
  exists u,
    modinv_64_prime 2 11 = Ret u /\ modinv_64 2 11 = Ret (u mod 11) /\
    primeinv 2 11 = Ret (PyLong u) /\ modinv 2 11 = Ret (PyLong (u mod 11)) /\
    - 11 <= 2 * u <= 11.
Proof.
  apply (primeinv_modinv_congruent 2 11).
  - exact prime_11.
  - unfold max_int64. simpl. lia.
  - lia.
Defined.

(** C4, counterexample. [prime_mod_inv(2, 11)] is [-5], while
    [mod_inv(2, 11)] is 6. *)
Lemma primeinv_modinv_differ :
  primeinv 2 11 = Ret (PyLong (-5)) /\ modinv 2 11 = Ret (PyLong 6) /\
  modinv_64_prime 2 11 = Ret (-5) /\ modinv_64 2 11 = Ret 6.
Proof. repeat split; reflexivity. Qed.

(** ** [modexp_64]: square and multiply *)

Lemma modexp_64_loop_S fuel g k p bits i r mask :
  modexp_64_loop (S fuel) g k p bits i r mask =
  if i <=? bits then
    r1 <- rem (mul r r) p ;;
    r2 <- (if Z.land k mask =? 0 then Ret r1 else rem (mul r1 g) p) ;;
    modexp_64_loop fuel g k p bits (wrap32 (i + 1)) r2 (shr1 mask)
  else Ret r.
Proof. reflexivity. Qed.

(** [k & (1 << j)] tests bit [j] of [k]. *)
Lemma land_pow2 (k j : Z) :
  0 <= j -> Z.land k (2 ^ j) = if Z.testbit k j then 2 ^ j else 0.
Proof.
  intros Hj. apply Z.bits_inj'. intros i Hi.
  rewrite Z.land_spec, Z.pow2_bits_eqb by assumption.
  destruct (Z.eqb_spec j i) as [->|Hne].
  - destruct (Z.testbit k i); simpl.
    + rewrite Z.pow2_bits_true by assumption. reflexivity.
    + rewrite Z.bits_0. reflexivity.
  - rewrite andb_false_r. destruct (Z.testbit k j).
    + rewrite Z.pow2_bits_false by assumption. reflexivity.
    + rewrite Z.bits_0. reflexivity.
Qed.

Lemma land_pow2_eqb (k j : Z) :
  0 <= j -> (Z.land k (2 ^ j) =? 0) = negb (Z.testbit k j).
Proof.
  intros Hj. rewrite land_pow2 by assumption.
  destruct (Z.testbit k j); simpl; [|reflexivity].
  apply Z.eqb_neq. assert (0 < 2 ^ j) by (apply Z.pow_pos_nonneg; lia). lia.
Qed.

(** The exponent read down to bit [j] extends the one read down to bit
    [j + 1] by bit [j]. *)
Lemma prefix_next_bit (k j : Z) :
  0 <= j -> k / 2 ^ j = 2 * (k / 2 ^ (j + 1)) + Z.b2z (Z.testbit k j).
Proof.
  intros Hj. rewrite Z.testbit_spec' by assumption.
  rewrite Z.pow_add_r, Z.pow_1_r by lia.
  assert (0 < 2 ^ j) by (apply Z.pow_pos_nonneg; lia).
  rewrite <- Z.div_div by lia.
  apply Z.div_mod. lia.
Qed.

Section SquareAndMultiply.

Variables g k p bits : Z.
Hypothesis p_ge_2 : 2 <= p.
Hypothesis g_nonneg : 0 <= g.
Hypothesis g_square : g * g <= max_int64.
Hypothesis p_square : (p - 1) * (p - 1) <= max_int64.
Hypothesis k_nonneg : 0 <= k.
Hypothesis bits_range : -1 <= bits <= 30.

Lemma running_bounds (x y : Z) :
  running g p x -> running g p y -> 0 <= x * y <= max_int64.
Proof.
  intros Hx Hy.
  assert (Hb : forall z, running g p z -> 0 <= z <= Z.max g (p - 1)).
  { intros z [->|Hz]; lia. }
  apply Hb in Hx, Hy.
  assert (Hm : Z.max g (p - 1) * Z.max g (p - 1) <= max_int64).
  { destruct (Z.max_spec g (p - 1)) as [[_ ->]|[_ ->]]; assumption. }
  nia.
Qed.

Lemma mul_running (x y : Z) :
  running g p x -> running g p y -> mul x y = x * y.
Proof.
  intros Hx Hy. pose proof (running_bounds x y Hx Hy).
  unfold mul. apply wrap64_id.
  unfold in_int64, min_int64. assert (0 < 2 ^ 63) by reflexivity. lia.
Qed.

Lemma mulmod_running (x y : Z) :
  running g p x -> running g p y ->
  rem (mul x y) p = Ret ((x * y) mod p) /\ running g p ((x * y) mod p).
Proof.
  intros Hx Hy. pose proof (running_bounds x y Hx Hy).
  rewrite mul_running by assumption. split.
  - apply rem_nonneg; lia.
  - right. apply Z.mod_pos_bound. lia.
Qed.

(** Entering round [i] the running result is congruent to [g] raised to the
    bits of [k] above bit [bits - i], and it is a residue once a round has
    run; the loop returns [g ^ k mod p]. *)
Lemma modexp_64_loop_spec fuel :
  forall i r mask,
    0 <= i <= bits + 1 ->
    bits + 1 - i < Z.of_nat fuel ->
    (i <= bits -> mask = 2 ^ (bits - i)) ->
    running g p r -> (i = bits + 1 -> 0 <= r < p) ->
    r mod p = g ^ (k / 2 ^ (bits + 1 - i)) mod p ->
    modexp_64_loop fuel g k p bits i r mask = Ret (g ^ k mod p).
Proof.
  induction fuel as [|fuel IH]; intros i r mask Hi Hfuel Hmask Hrun Hlast Hr;
    [simpl in Hfuel; lia|].
  rewrite modexp_64_loop_S.
  destruct (Z.leb_spec i bits) as [Hle|Hgt].
  - specialize (Hmask Hle). set (j := bits - i) in *.
    assert (Hj : 0 <= j) by (unfold j; lia).
    replace (bits + 1 - i) with (j + 1) in Hr by (unfold j; lia).
    set (e := k / 2 ^ (j + 1)) in *.
    assert (He : 0 <= e).
    { apply Z.div_pos; [lia|]. apply Z.pow_pos_nonneg; lia. }
    destruct (mulmod_running r r Hrun Hrun) as [Hsq_ret Hsq_run].
    rewrite Hsq_ret. cbn [bind].
    assert (Hsq : (r * r) mod p = (g ^ e * g ^ e) mod p).
    { rewrite Z.mul_mod, Hr, <- Z.mul_mod by lia. reflexivity. }
    rewrite Hmask, land_pow2_eqb by assumption.
    pose proof (prefix_next_bit k j Hj) as Hnext. fold e in Hnext.
    assert (Hi' : wrap32 (i + 1) = i + 1) by (apply wrap32_id; lia).
    assert (Hm' : i + 1 <= bits -> shr1 (2 ^ j) = 2 ^ (bits - (i + 1))).
    { intros H. unfold shr1. rewrite Z.shiftr_div_pow2 by lia.
      replace j with ((bits - (i + 1)) + 1) by (unfold j; lia).
      rewrite Z.pow_add_r, Z.div_mul by lia. reflexivity. }
    assert (Hres : forall x, 0 <= x mod p < p)
      by (intros x; apply Z.mod_pos_bound; lia).
    destruct (Z.testbit k j); simpl negb; cbv iota.
    + destruct (mulmod_running ((r * r) mod p) g Hsq_run (or_introl eq_refl))
        as [Hmul_ret Hmul_run].
      rewrite Hmul_ret. cbn [bind].
      rewrite Hi'. apply IH; [lia|lia|exact Hm'|exact Hmul_run|intros _; apply Hres|].
      replace (bits + 1 - (i + 1)) with j by (unfold j; lia).
      rewrite Hnext. simpl Z.b2z.
      rewrite Z.mod_mod, Hsq, Z.mul_mod_idemp_l by lia.
      rewrite Z.pow_add_r, Z.pow_mul_r, Z.pow_2_r, Z.pow_1_r, Z.pow_mul_l
        by lia.
      reflexivity.
    + cbn [bind]. rewrite Hi'.
      apply IH; [lia|lia|exact Hm'|exact Hsq_run|intros _; apply Hres|].
      replace (bits + 1 - (i + 1)) with j by (unfold j; lia).
      rewrite Hnext. simpl Z.b2z. rewrite Z.mod_mod, Hsq, Z.add_0_r by lia.
      rewrite Z.pow_mul_r, Z.pow_2_r, Z.pow_mul_l by lia. reflexivity.
  - replace (bits + 1 - i) with 0 in Hr by lia.
    rewrite Z.pow_0_r, Z.div_1_r in Hr. rewrite <- Hr.
    rewrite Z.mod_small by (apply Hlast; lia). reflexivity.
Qed.

End SquareAndMultiply.

Lemma sqrt_bound (x : Z) : 0 <= x -> x * x <= max_int64 -> x < 2 ^ 32.
Proof.
  intros Hx Hsq. unfold max_int64 in Hsq.
  change (2 ^ 63) with 9223372036854775808 in Hsq.
  change (2 ^ 32) with 4294967296. nia.
Qed.

(** On a base and a modulus whose squares fit 64 bits, [modexp_64] raises
    the base to the reduced exponent, when that exponent is at least 2, or
    is 1 and the base is below the modulus. *)
Lemma modexp_64_reduced (g k p : Z) :
  2 <= p -> 0 <= g -> g * g <= max_int64 -> (p - 1) * (p - 1) <= max_int64 ->
  0 <= k <= max_int64 ->
  2 <= k mod (p - 1) \/ (k mod (p - 1) = 1 /\ g < p) ->
  modexp_64 g k p = Ret (g ^ (k mod (p - 1)) mod p).
Proof.
  intros Hp Hg Hgg Hov Hk Hred.
  pose proof (sqrt_bound (p - 1) ltac:(lia) Hov) as Hp32.
  assert (Hp1 : 3 <= p).
  { destruct (Z.eq_dec p 2) as [->|]; [|lia].
    change (2 - 1) with 1 in Hred. rewrite Z.mod_1_r in Hred. lia. }
  pose proof (Z.mod_pos_bound k (p - 1) ltac:(lia)) as Hk'.
  assert (Hpm : in_int64 (p - 1)).
  { unfold in_int64, min_int64. assert (0 < 2 ^ 63) by reflexivity. nia. }
  unfold modexp_64, sub. rewrite (wrap64_id (p - 1)) by assumption.
  rewrite rem_nonneg by lia. cbn [bind].
  set (k' := k mod (p - 1)) in *.
  rewrite bit_length_spec
    by (unfold in_int64, min_int64 in *; assert (0 < 2 ^ 63) by reflexivity; lia).
  destruct (Z.leb_spec 1 k') as [_|]; [|lia]. cbn [bind].
  assert (Hl : 0 <= Z.log2 k' < 32).
  { split; [apply Z.log2_nonneg|]. apply Z.log2_lt_pow2; lia. }
  assert (Hl1 : k' = 1 -> Z.log2 k' = 0) by (intros ->; reflexivity).
  assert (Hl2 : 2 <= k' -> 1 <= Z.log2 k')
    by (intros H; apply Z.log2_le_pow2; simpl; lia).
  replace (Z.log2 k' + 1 - 2) with (Z.log2 k' - 1) by lia.
  rewrite (wrap64_id (Z.log2 k' - 1)) by (int64_bounds; lia).
  apply modexp_64_loop_spec; try lia.
  - intros Hb. unfold shl_int.
    rewrite Z.mod_small, Z.shiftl_1_l, Z.sub_0_r by lia.
    apply wrap32_id.
    assert (0 < 2 ^ (Z.log2 k' - 1)) by (apply Z.pow_pos_nonneg; lia).
    assert (2 ^ (Z.log2 k' - 1) <= 2 ^ 30) by (apply pow2_le_mono; lia).
    change (2 ^ 30) with 1073741824 in *. lia.
  - left. reflexivity.
  - replace (Z.log2 k' - 1 + 1 - 0) with (Z.log2 k') by lia.
    destruct (Z.log2_spec k' ltac:(lia)) as [Hlo Hhi].
    rewrite Z.pow_succ_r in Hhi by lia.
    replace (k' / 2 ^ Z.log2 k') with 1.
    + rewrite Z.pow_1_r. reflexivity.
    + apply Z.div_unique with (k' - 2 ^ Z.log2 k'); lia.
Qed.

(** Fermat's little theorem lets the exponent be reduced modulo [p - 1]. *)
Lemma fermat_reduce (g k p : Z) :
  Z.prime p -> g mod p <> 0 -> 0 <= k ->
  g ^ k mod p = g ^ (k mod (p - 1)) mod p.
Proof.
  intros Hp Hg Hk. pose proof (Z.prime_ge_2 p Hp) as Hp2.
  pose proof (Z.fermat_nz p g Hp Hg) as Hf.
  destruct (Z.eq_dec p 2) as [->|Hp3].
  - change (2 - 1) with 1 in *. rewrite Z.mod_1_r, Z.pow_0_r.
    rewrite Z.pow_1_r in Hf.
    rewrite <- Z.mod_pow_l, Hf, Z.pow_1_l by lia. reflexivity.
  - pose proof (Z.div_mod k (p - 1) ltac:(lia)) as Hdm.
    pose proof (Z.mod_pos_bound k (p - 1) ltac:(lia)) as Hb.
    assert (Hq : 0 <= k / (p - 1)) by (apply Z.div_pos; lia).
    set (q := k / (p - 1)) in *. set (m := k mod (p - 1)) in *.
    assert (Hpow : g ^ k = (g ^ (p - 1)) ^ q * g ^ m).
    { rewrite Hdm, Z.pow_add_r, Z.pow_mul_r; try lia. nia. }
    rewrite Hpow, <- Z.mul_mod_idemp_l, <- Z.mod_pow_l, Hf, Z.pow_1_l by lia.
    rewrite Z.mul_mod_idemp_l, Z.mul_1_l by lia. reflexivity.
Qed.

Lemma entry_in_int64 (z : Z) :
  in_int64 z -> fits_64 z = true /\ PyLong_AsLongLong z = z.
Proof.
  intros Hz. split.
  - unfold fits_64, _PyLong_NumBits.
    destruct (Z.eqb_spec z 0) as [|Hnz]; [reflexivity|].
    apply Z.leb_le. enough (Z.log2 (Z.abs z) < 64) by lia.
    apply Z.log2_lt_pow2; [lia|]. int64_bounds.
    change (2 ^ 64) with 18446744073709551616. lia.
  - unfold PyLong_AsLongLong. destruct Hz as [Hlo Hhi].
    apply Z.leb_le in Hlo, Hhi. rewrite Hlo, Hhi. reflexivity.
Qed.

Lemma modexp_fixed_width (g k p : Z) :
  in_int64 g -> in_int64 k -> in_int64 p ->
  modexp g k p = (result <- modexp_64 g k p ;; Ret (PyLong result)).
Proof.
  intros Hg Hk Hp. unfold modexp.
  destruct (entry_in_int64 g Hg) as [-> ->].
  destruct (entry_in_int64 k Hk) as [-> ->].
  destruct (entry_in_int64 p Hp) as [-> ->]. reflexivity.
Qed.

(** A prime is coprime to the bases it does not divide. *)
Lemma coprime_nonzero_mod (g p : Z) : Z.prime p -> Z.gcd g p = 1 -> g mod p <> 0.
Proof.
  intros Hp Hg Hm. pose proof (Z.prime_ge_2 p Hp).
  assert (Hd : (p | g)) by (apply Z.mod_divide; [lia|exact Hm]).
  assert (Hdg : (p | Z.gcd g p)) by (apply Z.gcd_greatest; [exact Hd|apply Z.divide_refl]).
  rewrite Hg in Hdg. apply Z.divide_1_r in Hdg. lia.
Qed.

(** C5, as amended. For a prime [p] and a base [g > 0] with
    [gcd(g, p) = 1] whose squares [g^2] and [(p - 1)^2] fit 64 bits, and an
    exponent [0 <= k] of the fixed-width path whose reduction
    [k mod (p - 1)] is at least 2, or is 1 with [g < p], [mod_exp] returns
    [g ^ k mod p], an integer of [[0, p)]. *)
Theorem modexp_correct (g k p : Z) :
  Z.prime p -> 0 < g -> Z.gcd g p = 1 ->
  g * g <= max_int64 -> (p - 1) * (p - 1) <= max_int64 ->
  0 <= k <= max_int64 ->
  2 <= k mod (p - 1) \/ (k mod (p - 1) = 1 /\ g < p) ->
  modexp_64 g k p = Ret (g ^ k mod p) /\
  modexp g k p = Ret (PyLong (g ^ k mod p)) /\
  0 <= g ^ k mod p < p.
Proof.
  intros Hp Hg Hgcd Hgg Hov Hk Hred. pose proof (Z.prime_ge_2 p Hp) as Hp2.
  assert (H64 : modexp_64 g k p = Ret (g ^ k mod p)).
  { rewrite (fermat_reduce g k p Hp (coprime_nonzero_mod g p Hp Hgcd)) by lia.
    apply modexp_64_reduced; try assumption; lia. }
  split; [exact H64|]. split; [|apply Z.mod_pos_bound; lia].
  pose proof (sqrt_bound g ltac:(lia) Hgg) as Hg32.
  pose proof (sqrt_bound (p - 1) ltac:(lia) Hov) as Hp32.
  change (2 ^ 32) with 4294967296 in *.
  assert (Hk64 : in_int64 k) by (unfold in_int64, min_int64 in *; lia).
  rewrite modexp_fixed_width, H64;
    [reflexivity| | |]; int64_bounds; lia.
Qed.

Lemma modexp_correct_witness :
  modexp_64 2 10 1000000007 = Ret (2 ^ 10 mod 1000000007) /\
  modexp 2 10 1000000007 = Ret (PyLong (2 ^ 10 mod 1000000007)) /\
  0 <= 2 ^ 10 mod 1000000007 < 1000000007.
Proof.
  apply (modexp_correct 2 10 1000000007).
  - exact prime_1000000007.
  - lia.
  - reflexivity.
  - unfold max_int64. simpl. lia.
  - unfold max_int64. simpl. lia.
  - unfold max_int64. simpl. lia.
  - left. vm_compute. discriminate.
Defined.

(** C5, counterexample. With the exponent 0, [mod_exp(2, 0, 5)] is 2, not
    [2 ^ 0 mod 5 = 1]; with the exponent 1 and a base above the modulus,
    [mod_exp(7, 1, 5)] is 7, not 2; with the base [-2] the result [-3] is
    outside [[0, 5)]; and modulo the prime 4294967311 the square of
    4294967310 overflows 64 bits, so that the result is not 1. *)
Lemma modexp_correct_fails :
  (Z.prime 5 /\
   (Z.gcd 2 5 = 1 /\ modexp_64 2 0 5 = Ret 2 /\ 2 ^ 0 mod 5 = 1) /\
   (Z.gcd 7 5 = 1 /\ modexp_64 7 1 5 = Ret 7 /\ 7 ^ 1 mod 5 = 2) /\
   (Z.gcd (-2) 5 = 1 /\ modexp_64 (-2) 3 5 = Ret (-3) /\
    (-2) ^ 3 mod 5 = 2)) /\
  (Z.prime 4294967311 /\ Z.gcd 4294967310 4294967311 = 1 /\
   modexp_64 4294967310 2 4294967311 = Ret 4294967087 /\
   4294967310 ^ 2 mod 4294967311 = 1).
Proof.
  split.
  - split; [exact prime_5|]. repeat split; reflexivity.
  - split; [exact prime_4294967311|]. repeat split; reflexivity.
Qed.

(** *** Reduced exponents 0 and 1 *)

(** With a reduced exponent of at most 1 the bit length is 1, the loop
    bound is [-1], no round runs and the base is returned as it came. *)
Lemma modexp_64_low_exponent (g k p : Z) :
  2 <= p <= max_int64 -> Z.rem k (p - 1) <= 1 -> modexp_64 g k p = Ret g.
Proof.
  intros Hp Hred.
  assert (Hpm : in_int64 (p - 1)) by (unfold in_int64, min_int64 in *; lia).
  unfold modexp_64, sub. rewrite (wrap64_id (p - 1)) by assumption.
  rewrite rem_defined by lia. cbn [bind].
  rewrite bit_length_spec by (apply rem_in_int64; [assumption|lia]).
  assert (Hb : (if 1 <=? Z.rem k (p - 1) then Z.log2 (Z.rem k (p - 1)) + 1 else 1)
               = 1).
  { destruct (Z.leb_spec 1 (Z.rem k (p - 1))); [|reflexivity].
    replace (Z.rem k (p - 1)) with 1 by lia. reflexivity. }
  rewrite Hb. reflexivity.
Qed.

(** C6, failing input. With [p = 5], [g = 2] and [k = 4] the exponent
    reduces to 0 and [mod_exp] returns the base 2, where
    [2 ^ 4 mod 5 = 1]. *)
Theorem modexp_reduced_exponent_zero :
  Z.prime 5 /\ Z.gcd 2 5 = 1 /\ 4 mod (5 - 1) = 0 /\
  modexp_64 2 4 5 = Ret 2 /\ modexp 2 4 5 = Ret (PyLong 2) /\
  2 ^ 4 mod 5 = 1.
Proof. split; [exact prime_5|]. repeat split; reflexivity. Qed.

(** *** No check of the modulus *)

Lemma modexp_64_loop_total fuel :
  forall g k p bits i r mask,
    0 <= i -> bits <= 62 -> bits - i < Z.of_nat fuel ->
    modexp_64_loop (S fuel) g k p bits i r mask <> OutOfFuel.
Proof.
  induction fuel as [|fuel IH]; intros g k p bits i r mask Hi Hbits Hfuel;
    rewrite modexp_64_loop_S; destruct (Z.leb_spec i bits) as [Hle|Hgt];
    try discriminate.
  - simpl in Hfuel. lia.
  - unfold rem at 1. destruct (undefined_division (mul r r) p);
      [discriminate|]. cbn [bind].
    assert (Hstep : forall r', bind (Ret r') (fun r2 =>
              modexp_64_loop (S fuel) g k p bits (wrap32 (i + 1)) r2 (shr1 mask))
              <> OutOfFuel).
    { intros r'. cbn [bind]. rewrite wrap32_id by lia.
      apply IH; lia. }
    destruct (Z.land k mask =? 0); [apply Hstep|].
    unfold rem. destruct (undefined_division _ p); [discriminate|apply Hstep].
Qed.

Lemma modexp_64_returns_or_faults (g k p : Z) :
  in_int64 k -> modexp_64 g k p = Fault \/ exists v, modexp_64 g k p = Ret v.
Proof.
  intros Hk.
  enough (H : modexp_64 g k p <> OutOfFuel).
  { destruct (modexp_64 g k p) as [v| |]; [right; exists v; reflexivity|
      left; reflexivity|contradiction]. }
  unfold modexp_64. unfold rem at 1.
  destruct (undefined_division k (sub p 1)) eqn:Hud; [discriminate|].
  cbn [bind].
  assert (Hm : sub p 1 <> 0).
  { intros H0. unfold undefined_division in Hud. rewrite H0 in Hud.
    discriminate. }
  set (k' := Z.rem k (sub p 1)).
  assert (Hk' : in_int64 k') by (apply rem_in_int64; [apply wrap64_range|exact Hm]).
  rewrite bit_length_spec by assumption. cbn [bind].
  set (b := if 1 <=? k' then Z.log2 k' + 1 else 1).
  assert (Hb : 1 <= b <= 63).
  { unfold b. destruct (Z.leb_spec 1 k'); [|lia].
    pose proof (Z.log2_nonneg k').
    enough (Z.log2 k' < 63) by lia.
    apply Z.log2_lt_pow2; [lia|]. int64_bounds.
    change (2 ^ 63) with 9223372036854775808. lia. }
  unfold sub. rewrite (wrap64_id (b - 2)) by (int64_bounds; lia).
  apply (modexp_64_loop_total 63); simpl; lia.
Qed.

(** C7, as amended. [mod_exp] does not check its modulus: on operands of
    the fixed-width path with [p <= 1] it does the arithmetic, and ends in
    an undefined division or returns an integer; with [p = 1] the reduction
    of the exponent divides by zero, and with [p = 0] the call returns [g]
    (for [k] other than [INT64_MIN]). *)
Theorem modexp_unchecked_modulus (g k p : Z) :
  in_int64 g -> in_int64 k -> in_int64 p -> p <= 1 ->
  (modexp g k p = Fault \/ exists v, modexp g k p = Ret (PyLong v)) /\
  (p = 1 -> modexp g k p = Fault) /\
  (p = 0 -> k <> min_int64 -> modexp g k p = Ret (PyLong g)).
Proof.
  intros Hg Hk Hp Hp1. rewrite modexp_fixed_width by assumption.
  split; [|split].
  - destruct (modexp_64_returns_or_faults g k p Hk) as [->|[v ->]];
      [left; reflexivity|right; exists v; reflexivity].
  - intros ->. reflexivity.
  - intros -> Hmin. unfold modexp_64.
    change (sub 0 1) with (-1). rewrite rem_defined by lia.
    pose proof (Z.rem_opp_r k 1 ltac:(lia)) as Hopp.
    change (- (1)) with (-1) in Hopp. rewrite Hopp, Z.rem_1_r. reflexivity.
Qed.

Lemma modexp_unchecked_modulus_witness :
  (modexp 3 5 0 = Fault \/ exists v, modexp 3 5 0 = Ret (PyLong v)) /\
  (0 = 1 -> modexp 3 5 0 = Fault) /\
  (0 = 0 -> 5 <> min_int64 -> modexp 3 5 0 = Ret (PyLong 3)).
Proof.
  apply (modexp_unchecked_modulus 3 5 0).
  - apply in_int64_bounds. lia.
  - apply in_int64_bounds. lia.
  - apply in_int64_bounds. lia.
  - lia.
Defined.

(** C7, counterexample. [mod_exp(3, 5, 0)] returns the integer 3 and no
    error, and [mod_exp(3, 5, 1)] divides by zero. *)
Lemma modexp_unchecked_modulus_example :
  modexp 3 5 0 = Ret (PyLong 3) /\ modexp 3 5 0 <> Ret NULL /\
  modexp 3 5 1 = Fault /\ modexp 3 7 (-4) = Ret (PyLong 1).
Proof. repeat split; try reflexivity. discriminate. Qed.

(** ** The two precisions side by side *)

(** Where an inverse exists, on non-negative operands, the
    arbitrary-precision branch of [modinv] returns what [modinv_64]
    returns. *)
Lemma modinv_paths_agree (a n : Z) :
  0 <= a <= max_int64 -> 1 <= n <= max_int64 -> Z.gcd a n = 1 ->
  modinv_big a n = (t <- modinv_64 a n ;; Ret (PyLong t)).
Proof.
  intros Ha Hn Hg.
  destruct (Z.eq_dec a n) as [->|Hneq].
  - rewrite Z.gcd_diag, Z.abs_eq in Hg by lia. subst n. reflexivity.
  - destruct (modinv_64_loop_result a n Ha Hn (or_introl Hneq))
      as (t1 & r1 & Hrun & Hbig & Hr1 & Hres).
    rewrite Hg in Hr1. destruct (Hres Hr1) as [_ Ht].
    rewrite (modinv_64_of_loop _ _ _ _ Hrun), (modinv_big_of_loop _ _ _ _ Hbig).
    rewrite Hr1. simpl. destruct (Z.ltb_spec t1 0); [|reflexivity].
    unfold add. rewrite wrap64_id by (apply (small_in_int64 n); lia).
    reflexivity.
Qed.

(** Below the modulus, [_primeinv] returns what [modinv_64_prime] returns. *)
Lemma primeinv_paths_agree (a n : Z) :
  0 <= a < n -> n <= max_int64 ->
  _primeinv a n = (u <- modinv_64_prime a n ;; Ret (PyLong u)).
Proof.
  intros Ha Hn.
  destruct (prime_loops_run a n Ha) as (t1 & r1 & _ & Hbig & H64).
  unfold _primeinv. rewrite Hbig, (H64 Hn). reflexivity.
Qed.

(** The guard of the entry points lets 64-bit magnitudes through, which
    [long long] does not hold: [2 ^ 63] is converted to [-1]. *)
Lemma dispatch_guard_gap :
  fits_64 (2 ^ 63) = true /\ PyLong_AsLongLong (2 ^ 63) = -1 /\
  modinv (2 ^ 63) 3 = Ret (PyLong 1) /\ modinv_big (2 ^ 63) 3 = Ret (PyLong 2).
Proof. repeat split; reflexivity. Qed.

(** On a negative operand truncating and floor division part ways. *)
Lemma primeinv_paths_differ_on_negative :
  primeinv (-3) 11 = Ret (PyLong 4) /\ _primeinv (-3) 11 = Ret (PyLong (-4)).
Proof. repeat split; reflexivity. Qed.

(** The scenarios of the specification on which the code agrees with it. *)
Lemma spec_scenarios :
  modinv 3 11 = Ret (PyLong 4) /\ modexp 2 10 1000000007 = Ret (PyLong 1024).
Proof. repeat split; reflexivity. Qed.

(** C3, failing input. On [(6, 9)], operands of the fixed-width path with
    gcd 3, [modinv_64] returns 0 and so does the entry point, while the
    arbitrary-precision branch returns [None] on the same operands, as the
    entry point does on operands that reach that branch. *)
Theorem modinv_paths_disagree :
  Z.gcd 6 9 = 3 /\ modinv_64 6 9 = Ret 0 /\ modinv 6 9 = Ret (PyLong 0) /\
  modinv_big 6 9 = Ret Py_None /\
  modinv (6 * 2 ^ 64) (9 * 2 ^ 64) = Ret Py_None.
Proof. repeat split; reflexivity. Qed.

(** * Further properties of the routines *)

(** ** The routines return *)

Lemma above_min_in_int64 (z : Z) : min_int64 < z <= max_int64 -> in_int64 z.
Proof. unfold in_int64. lia. Qed.

Lemma rem_above_min (x y : Z) :
  min_int64 < y <= max_int64 -> y <> 0 ->
  min_int64 < Z.rem x y <= max_int64.
Proof.
  intros Hy Hnz. pose proof (Z.rem_bound_abs x y Hnz).
  unfold min_int64, max_int64 in *.
  change (2 ^ 63) with 9223372036854775808 in *. lia.
Qed.

(** With both remainders above [INT64_MIN] the loop never meets
    [INT64_MIN / -1], and its guard keeps zero divisors out. *)
Lemma modinv_64_loop_no_fault fuel :
  forall t1 t2 r1 r2,
    min_int64 < r1 <= max_int64 -> min_int64 < r2 <= max_int64 ->
    modinv_64_loop fuel t1 t2 r1 r2 <> Fault.
Proof.
  induction fuel as [|fuel IH]; intros t1 t2 r1 r2 H1 H2; [discriminate|].
  rewrite modinv_64_loop_S.
  destruct (Z.eqb_spec r2 0) as [|Hnz]; [discriminate|].
  unfold div, undefined_division.
  destruct (Z.eqb_spec r2 0) as [|_]; [contradiction|].
  destruct (Z.eqb_spec r1 min_int64) as [|_]; [lia|].
  cbn [orb andb bind].
  rewrite sub_mul_quot by (try apply above_min_in_int64; assumption).
  apply IH; [assumption|apply rem_above_min; assumption].
Qed.

(** X1. On operands above [INT64_MIN], [modinv_64] divides neither by zero
    nor out of range, and its loop ends: the call returns an integer, and
    so does the entry point [modinv]. *)
Theorem modinv_64_returns (a n : Z) :
  min_int64 < a <= max_int64 -> min_int64 < n <= max_int64 ->
  exists t, modinv_64 a n = Ret t /\ modinv a n = Ret (PyLong t).
Proof.
  intros Ha Hn.
  pose proof (above_min_in_int64 a Ha) as Hia.
  pose proof (above_min_in_int64 n Hn) as Hin.
  assert (H64 : exists t, modinv_64 a n = Ret t).
  { destruct (modinv_64_returns_or_faults a n Hia Hin) as [Hf|Hr];
      [|exact Hr].
    exfalso. unfold modinv_64 in Hf.
    pose proof (modinv_64_loop_no_fault (euclid_fuel a n) 0 1 n a Hn Ha) as Hnf.
    destruct (modinv_64_loop (euclid_fuel a n) 0 1 n a) as [[t1 r1]| |];
      [|contradiction|discriminate].
    cbn [bind] in Hf. destruct (1 <? r1); [discriminate|].
    destruct (t1 <? 0); discriminate. }
  destruct H64 as [t Ht]. exists t. split; [exact Ht|].
  unfold modinv.
  destruct (entry_in_int64 a Hia) as [-> ->].
  destruct (entry_in_int64 n Hin) as [-> ->].
  cbn [andb]. rewrite Ht. reflexivity.
Qed.

Lemma modinv_64_returns_witness :
  exists t, modinv_64 (-7) 0 = Ret t /\ modinv (-7) 0 = Ret (PyLong t).
Proof.
  apply (modinv_64_returns (-7) 0).
  - unfold min_int64, max_int64. simpl. lia.
  - unfold min_int64, max_int64. simpl. lia.
Defined.

(** X2. On operands above [INT64_MIN], [modinv_64_prime] returns an
    integer, whether or not the modulus is prime, and so does the entry
    point [primeinv]. *)
Theorem modinv_64_prime_returns (a n : Z) :
  min_int64 < a <= max_int64 -> min_int64 < n <= max_int64 ->
  exists u, modinv_64_prime a n = Ret u /\ primeinv a n = Ret (PyLong u).
Proof.
  intros Ha Hn.
  pose proof (above_min_in_int64 a Ha) as Hia.
  pose proof (above_min_in_int64 n Hn) as Hin.
  assert (H64 : exists u, modinv_64_prime a n = Ret u).
  { destruct (modinv_64_prime_returns_or_faults a n Hia Hin) as [Hf|Hr];
      [|exact Hr].
    exfalso. unfold modinv_64_prime in Hf.
    rewrite modinv_64_prime_loop_as_modinv in Hf by assumption.
    pose proof (modinv_64_loop_no_fault (euclid_fuel a n) 1 0 a n Ha Hn) as Hnf.
    destruct (modinv_64_loop (euclid_fuel a n) 1 0 a n) as [[t1 r1]| |];
      [discriminate|contradiction|discriminate]. }
  destruct H64 as [u Hu]. exists u. split; [exact Hu|].
  unfold primeinv.
  destruct (entry_in_int64 a Hia) as [-> ->].
  destruct (entry_in_int64 n Hin) as [-> ->].
  cbn [andb]. rewrite Hu. reflexivity.
Qed.

Lemma modinv_64_prime_returns_witness :
  exists u, modinv_64_prime 6 (-9) = Ret u /\ primeinv 6 (-9) = Ret (PyLong u).
Proof.
  apply (modinv_64_prime_returns 6 (-9)).
  - unfold min_int64, max_int64. simpl. lia.
  - unfold min_int64, max_int64. simpl. lia.
Defined.

(** ** [modexp]: what it returns on any modulus above 1 *)

Lemma rem_modulus (x p : Z) :
  2 <= p -> rem x p = Ret (Z.rem x p) /\ - p < Z.rem x p < p.
Proof.
  intros Hp. split; [apply rem_defined; lia|].
  pose proof (Z.rem_bound_abs x p ltac:(lia)). lia.
Qed.

(** Whatever the operands, a modulus above 1 keeps the rounds free of
    undefined divisions, and what they leave is the running value or a
    truncated remainder. *)
Lemma modexp_64_loop_outcome fuel :
  forall g k p bits i r mask,
    2 <= p ->
    match modexp_64_loop fuel g k p bits i r mask with
    | Ret v => v = r \/ - p < v < p
    | Fault => False
    | OutOfFuel => True
    end.
Proof.
  induction fuel as [|fuel IH]; intros g k p bits i r mask Hp; [exact I|].
  rewrite modexp_64_loop_S.
  destruct (i <=? bits); [|left; reflexivity].
  destruct (rem_modulus (mul r r) p Hp) as [-> Hsq]. cbn [bind].
  assert (Hnext : forall r2, - p < r2 < p ->
            match modexp_64_loop fuel g k p bits (wrap32 (i + 1)) r2 (shr1 mask)
            with
            | Ret v => v = r \/ - p < v < p
            | Fault => False
            | OutOfFuel => True
            end).
  { intros r2 Hr2.
    specialize (IH g k p bits (wrap32 (i + 1)) r2 (shr1 mask) Hp).
    destruct (modexp_64_loop fuel g k p bits (wrap32 (i + 1)) r2 (shr1 mask));
      [right; lia|exact IH|exact I]. }
  destruct (Z.land k mask =? 0); cbn [bind]; [apply Hnext, Hsq|].
  destruct (rem_modulus (mul (Z.rem (mul r r) p) g) p Hp) as [-> Hmul].
  cbn [bind]. apply Hnext, Hmul.
Qed.

(** X3. For every modulus [p >= 2] and every base and exponent of the
    fixed-width path, [modexp_64] returns: the result is the base as it
    came, or a value strictly between [-p] and [p]. *)
Theorem modexp_64_returns (g k p : Z) :
  in_int64 g -> in_int64 k -> 2 <= p <= max_int64 ->
  exists v, modexp_64 g k p = Ret v /\ (v = g \/ - p < v < p).
Proof.
  intros _ Hk Hp.
  pose proof (modexp_64_returns_or_faults g k p Hk) as Hrf.
  unfold modexp_64, sub in *.
  assert (Hpm : in_int64 (p - 1)) by (unfold in_int64, min_int64 in *; lia).
  rewrite (wrap64_id (p - 1) Hpm) in *.
  rewrite rem_defined in * by lia. cbn [bind] in *.
  rewrite bit_length_spec in * by (apply rem_in_int64; [assumption|lia]).
  cbn [bind] in *.
  set (b := if 1 <=? Z.rem k (p - 1) then Z.log2 (Z.rem k (p - 1)) + 1 else 1)
    in *.
  pose proof (modexp_64_loop_outcome 64 g (Z.rem k (p - 1)) p (wrap64 (b - 2)) 0
                g (shl_int 1 (wrap64 (b - 2))) ltac:(lia)) as Hout.
  destruct (modexp_64_loop 64 g (Z.rem k (p - 1)) p (wrap64 (b - 2)) 0 g
              (shl_int 1 (wrap64 (b - 2)))) as [v| |].
  - exists v. split; [reflexivity|exact Hout].
  - contradiction.
  - destruct Hrf as [Hf|[v Hv]]; discriminate.
Qed.

Lemma modexp_64_returns_witness :
  exists v, modexp_64 (-2) 3 5 = Ret v /\ (v = -2 \/ - 5 < v < 5).
Proof.
  apply (modexp_64_returns (-2) 3 5).
  - apply in_int64_bounds. lia.
  - apply in_int64_bounds. lia.
  - unfold max_int64. simpl. lia.
Defined.

(** X4. Whenever the truncated remainder of the exponent by [p - 1] is at
    most 1 (every [k <= 0], every multiple of [p - 1], and one more than
    such a multiple), no round runs and [modexp] returns the base
    unchanged, not reduced modulo [p]. *)
Theorem modexp_low_exponent_returns_base (g k p : Z) :
  in_int64 g -> in_int64 k -> 2 <= p <= max_int64 ->
  Z.rem k (p - 1) <= 1 ->
  modexp_64 g k p = Ret g /\ modexp g k p = Ret (PyLong g).
Proof.
  intros Hg Hk Hp Hred.
  pose proof (modexp_64_low_exponent g k p Hp Hred) as H64.
  split; [exact H64|].
  rewrite modexp_fixed_width, H64; [reflexivity|assumption|assumption|].
  unfold in_int64, min_int64 in *. lia.
Qed.

Lemma modexp_low_exponent_returns_base_witness :
  modexp_64 9 (-7) 5 = Ret 9 /\ modexp 9 (-7) 5 = Ret (PyLong 9).
Proof.
  apply (modexp_low_exponent_returns_base 9 (-7) 5).
  - apply in_int64_bounds. lia.
  - apply in_int64_bounds. lia.
  - unfold max_int64. simpl. lia.
  - vm_compute. discriminate.
Defined.

(** X5. [modexp] reduces the exponent modulo [p - 1] for every modulus,
    prime or not: for [p >= 2], a base [g >= 0] and squares [g^2],
    [(p - 1)^2] within 64 bits, it returns [g ^ (k mod (p - 1)) mod p] when
    that reduced exponent is at least 2, or is 1 with [g < p]. *)
Theorem modexp_reduces_exponent (g k p : Z) :
  2 <= p -> 0 <= g -> g * g <= max_int64 -> (p - 1) * (p - 1) <= max_int64 ->
  0 <= k <= max_int64 ->
  2 <= k mod (p - 1) \/ (k mod (p - 1) = 1 /\ g < p) ->
  modexp_64 g k p = Ret (g ^ (k mod (p - 1)) mod p) /\
  modexp g k p = Ret (PyLong (g ^ (k mod (p - 1)) mod p)).
Proof.
  intros Hp Hg Hgg Hov Hk Hred.
  pose proof (modexp_64_reduced g k p Hp Hg Hgg Hov Hk Hred) as H64.
  split; [exact H64|].
  pose proof (sqrt_bound g Hg Hgg) as Hg32.
  pose proof (sqrt_bound (p - 1) ltac:(lia) Hov) as Hp32.
  change (2 ^ 32) with 4294967296 in *.
  assert (Hk64 : in_int64 k) by (unfold in_int64, min_int64 in *; lia).
  rewrite modexp_fixed_width, H64; [reflexivity| | |]; int64_bounds; lia.
Qed.

(** With the composite modulus 15 the result is [2 ^ 6 mod 15 = 4], where
    [2 ^ 20 mod 15 = 1]. *)
Lemma modexp_reduces_exponent_witness :
  (modexp_64 2 20 15 = Ret (2 ^ (20 mod (15 - 1)) mod 15) /\
   modexp 2 20 15 = Ret (PyLong (2 ^ (20 mod (15 - 1)) mod 15))) /\
  2 ^ (20 mod (15 - 1)) mod 15 = 4 /\ 2 ^ 20 mod 15 = 1.
Proof.
  split.
  - apply (modexp_reduces_exponent 2 20 15).
    + lia.
    + lia.
    + unfold max_int64. simpl. lia.
    + unfold max_int64. simpl. lia.
    + unfold max_int64. simpl. lia.
    + left. vm_compute. discriminate.
  - split; reflexivity.
Defined.

(** X6. For every modulus [p >= 2] and every base, the result of
    [modexp_64] depends on a non-negative exponent only through its residue
    modulo [p - 1]: adding a multiple of [p - 1] to the exponent changes
    nothing. *)
Theorem modexp_64_periodic (g k j p : Z) :
  2 <= p <= max_int64 -> 0 <= k -> 0 <= j ->
  k + j * (p - 1) <= max_int64 ->
  modexp_64 g (k + j * (p - 1)) p = modexp_64 g k p.
Proof.
  intros Hp Hk Hj _. unfold modexp_64, sub.
  assert (Hpm : in_int64 (p - 1)) by (unfold in_int64, min_int64 in *; lia).
  rewrite (wrap64_id (p - 1) Hpm).
  rewrite !rem_nonneg by nia.
  rewrite Z_mod_plus_full. reflexivity.
Qed.

Lemma modexp_64_periodic_witness :
  modexp_64 3 (5 + 2 * (11 - 1)) 11 = modexp_64 3 5 11.
Proof.
  apply (modexp_64_periodic 3 5 2 11).
  - unfold max_int64. simpl. lia.
  - lia.
  - lia.
  - unfold max_int64. simpl. lia.
Defined.

Lemma fits_64_abs_large (z : Z) : 2 ^ 64 <= Z.abs z -> fits_64 z = false.
Proof.
  intros Hz. assert (0 < 2 ^ 64) by reflexivity.
  unfold fits_64, _PyLong_NumBits.
  destruct (Z.eqb_spec z 0) as [->|Hnz]; [simpl in Hz; lia|].
  apply Z.leb_gt. enough (64 <= Z.log2 (Z.abs z)) by lia.
  apply Z.log2_le_pow2; lia.
Qed.

(** X7. [modexp] has no arbitrary-precision path: as soon as one of its
    three operands has a magnitude of [2 ^ 64] or more, it does no
    arithmetic and hands back [NULL]. *)
Theorem modexp_oversized (g k p : Z) :
  2 ^ 64 <= Z.abs g \/ 2 ^ 64 <= Z.abs k \/ 2 ^ 64 <= Z.abs p ->
  modexp g k p = Ret NULL.
Proof.
  intros [H|[H|H]]; unfold modexp; rewrite (fits_64_abs_large _ H).
  - reflexivity.
  - rewrite andb_false_r. reflexivity.
  - destruct (fits_64 g && fits_64 k); reflexivity.
Qed.

Lemma modexp_oversized_witness : modexp 2 10 (2 ^ 64 + 13) = Ret NULL.
Proof.
  apply (modexp_oversized 2 10 (2 ^ 64 + 13)).
  right. right. simpl. lia.
Defined.

(** ** [bit_length]: the most significant set bit *)

(** X8. For [n >= 1], [bit_length] returns the position, counted from 1,
    of the most significant set bit: bit [b - 1] of [n] is set and no bit
    from [b] on is. *)
Theorem bit_length_msb (n : Z) :
  1 <= n <= max_int64 ->
  exists b, bit_length n = Ret b /\ 1 <= b <= 63 /\
            Z.testbit n (b - 1) = true /\
            (forall i, b <= i -> Z.testbit n i = false).
Proof.
  intros Hn.
  assert (Hin : in_int64 n) by (unfold in_int64, min_int64 in *; lia).
  exists (Z.log2 n + 1). rewrite bit_length_spec by assumption.
  destruct (Z.leb_spec 1 n) as [_|]; [|lia].
  pose proof (Z.log2_nonneg n).
  assert (Z.log2 n < 63).
  { apply Z.log2_lt_pow2; [lia|]. unfold max_int64 in Hn. lia. }
  split; [reflexivity|]. split; [lia|]. split.
  - replace (Z.log2 n + 1 - 1) with (Z.log2 n) by lia.
    apply Z.bit_log2. lia.
  - intros i Hi. apply Z.bits_above_log2; lia.
Qed.

Lemma bit_length_msb_witness :
  exists b, bit_length 1000 = Ret b /\ 1 <= b <= 63 /\
            Z.testbit 1000 (b - 1) = true /\
            (forall i, b <= i -> Z.testbit 1000 i = false).
Proof.
  apply (bit_length_msb 1000). unfold max_int64. simpl. lia.
Defined.

(** ** [modinv]: the arbitrary-precision branch and the sentinel 0 *)

(** X9. On operands [a >= 0], [n > 0] with [gcd(a, n) = 1] of which one
    needs more than 64 bits, [modinv] runs its arbitrary-precision branch
    and returns the unique [t] of [[0, n)] with [a * t = 1 (mod n)]. *)
Theorem modinv_big_inverse (a n : Z) :
  0 <= a -> 1 <= n -> Z.gcd a n = 1 -> 2 ^ 64 <= a \/ 2 ^ 64 <= n ->
  exists t,
    modinv a n = Ret (PyLong t) /\
    0 <= t < n /\ (a * t) mod n = 1 mod n /\
    (forall t', 0 <= t' < n -> (a * t') mod n = 1 mod n -> t' = t).
Proof.
  intros Ha Hn Hg Hbig. assert (0 < 2 ^ 64) by reflexivity.
  assert (Hneq : a <> n \/ 1 < n).
  { destruct (Z.eq_dec a n) as [->|]; [right; lia|left; assumption]. }
  destruct (modinv_big_loop_result a n Ha Hn Hneq) as (t1 & r1 & Hrun & Hr1 & Hres).
  rewrite Hg in Hr1. destruct (Hres Hr1) as [Hb Ht].
  exists (if t1 <? 0 then t1 + n else t1). split.
  - rewrite modinv_large, (modinv_big_of_loop _ _ _ _ Hrun), Hr1 by assumption.
    simpl. destruct (t1 <? 0); reflexivity.
  - apply (normalised_inverse a n t1); [lia|exact Hb|exact Ht].
Qed.

Lemma modinv_big_inverse_witness :
  exists t,
    modinv 3 (2 ^ 64 + 1) = Ret (PyLong t) /\
    0 <= t < 2 ^ 64 + 1 /\ (3 * t) mod (2 ^ 64 + 1) = 1 mod (2 ^ 64 + 1) /\
    (forall t', 0 <= t' < 2 ^ 64 + 1 ->
                (3 * t') mod (2 ^ 64 + 1) = 1 mod (2 ^ 64 + 1) -> t' = t).
Proof.
  apply (modinv_big_inverse 3 (2 ^ 64 + 1)).
  - lia.
  - simpl. lia.
  - reflexivity.
  - right. simpl. lia.
Defined.

(** On non-negative operands of the fixed-width path, [modinv_64] either
    returns the inverse, or returns 0 where there is none. *)
Lemma modinv_64_cases (a n : Z) :
  0 <= a <= max_int64 -> 2 <= n <= max_int64 ->
  (Z.gcd a n = 1 /\
   exists t, modinv_64 a n = Ret t /\ 0 < t < n /\ (a * t) mod n = 1 /\
     (forall t', 0 <= t' < n -> (a * t') mod n = 1 -> t' = t)) \/
  (1 < Z.gcd a n /\ modinv_64 a n = Ret 0).
Proof.
  intros Ha Hn.
  destruct (Z.eq_dec (Z.gcd a n) 1) as [Hg|Hg].
  - left. split; [exact Hg|].
    destruct (modinv_64_value a n Ha ltac:(lia) Hg ltac:(lia))
      as (t1 & Hb & Ht & H64 & _).
    destruct (normalised_inverse a n t1 ltac:(lia) Hb Ht) as (Hrange & Hinv & Huniq).
    rewrite Z.mod_1_l in Hinv, Huniq by lia.
    exists (if t1 <? 0 then t1 + n else t1).
    split; [exact H64|]. split; [|split; [exact Hinv|exact Huniq]].
    destruct (Z.eq_dec (if t1 <? 0 then t1 + n else t1) 0) as [H0|]; [|lia].
    rewrite H0, Z.mul_0_r, Z.mod_0_l in Hinv by lia. discriminate.
  - right.
    assert (Hgt : 1 < Z.gcd a n).
    { pose proof (Z.gcd_nonneg a n).
      destruct (Z.eq_dec (Z.gcd a n) 0) as [H0|]; [|lia].
      apply Z.gcd_eq_0_r in H0. lia. }
    split; [exact Hgt|].
    assert (Hneq : a <> n \/ 1 < n) by (right; lia).
    destruct (modinv_64_loop_result a n Ha ltac:(lia) Hneq)
      as (t1 & r1 & Hrun & _ & Hr1 & _).
    rewrite (modinv_64_of_loop _ _ _ _ Hrun), Hr1.
    destruct (Z.ltb_spec 1 (Z.gcd a n)); [reflexivity|lia].
Qed.

(** X10. On non-negative operands of the fixed-width path the
    arbitrary-precision branch of [modinv] refines [modinv_64]: it returns
    the same integer when [gcd(a, n) = 1], and [None] where [modinv_64]
    returns its 0. *)
Theorem modinv_branches_related (a n : Z) :
  0 <= a <= max_int64 -> 1 <= n <= max_int64 ->
  modinv_big a n =
  (t <- modinv_64 a n ;;
   Ret (if Z.gcd a n =? 1 then PyLong t else Py_None)).
Proof.
  intros Ha Hn.
  destruct (Z.eqb_spec (Z.gcd a n) 1) as [Hg|Hg].
  - rewrite (modinv_paths_agree a n Ha Hn Hg).
    destruct (modinv_64 a n); reflexivity.
  - assert (Hn2 : 2 <= n).
    { destruct (Z.eq_dec n 1) as [->|]; [|lia]. rewrite Z.gcd_1_r in Hg. lia. }
    destruct (modinv_64_cases a n Ha ltac:(lia)) as [[Hg' _]|[Hgt H64]];
      [contradiction|].
    rewrite H64. cbn [bind].
    assert (Hneq : a <> n \/ 1 < n) by (right; lia).
    destruct (modinv_big_loop_result a n ltac:(lia) ltac:(lia) Hneq)
      as (t1 & r1 & Hrun & Hr1 & _).
    rewrite (modinv_big_of_loop _ _ _ _ Hrun), Hr1.
    destruct (Z.ltb_spec 1 (Z.gcd a n)); [reflexivity|lia].
Qed.

Lemma modinv_branches_related_witness :
  modinv_big 6 35 =
  (t <- modinv_64 6 35 ;; Ret (if Z.gcd 6 35 =? 1 then PyLong t else Py_None)).
Proof.
  apply (modinv_branches_related 6 35).
  - unfold max_int64. simpl. lia.
  - unfold max_int64. simpl. lia.
Defined.

(** X11. For a modulus [n >= 2] and [a >= 0] of the fixed-width path,
    [modinv_64] returns 0 exactly when [a] has no inverse modulo [n]: the
    value 0 is never returned for an invertible operand. *)
Theorem modinv_64_zero_iff (a n : Z) :
  0 <= a <= max_int64 -> 2 <= n <= max_int64 ->
  modinv_64 a n = Ret 0 <-> Z.gcd a n <> 1.
Proof.
  intros Ha Hn.
  destruct (modinv_64_cases a n Ha Hn) as [[Hg (t & H64 & Ht & _)]|[Hg H64]].
  - split; [|contradiction].
    intros H0. rewrite H64 in H0. injection H0 as ->. lia.
  - split; [lia|]. intros _. exact H64.
Qed.

Lemma modinv_64_zero_iff_witness :
  modinv_64 6 9 = Ret 0 <-> Z.gcd 6 9 <> 1.
Proof.
  apply (modinv_64_zero_iff 6 9).
  - unfold max_int64. simpl. lia.
  - unfold max_int64. simpl. lia.
Defined.

(** X12. For a modulus [n >= 2] and [a >= 0] of the fixed-width path,
    [modinv_64] sees its operand only modulo [n]:
    [modinv_64(a, n) = modinv_64(a mod n, n)]. *)
Theorem modinv_64_mod (a n : Z) :
  0 <= a <= max_int64 -> 2 <= n <= max_int64 ->
  modinv_64 a n = modinv_64 (a mod n) n.
Proof.
  intros Ha Hn.
  pose proof (Z.mod_pos_bound a n ltac:(lia)) as Hm.
  assert (Hgm : Z.gcd (a mod n) n = Z.gcd a n).
  { rewrite Z.gcd_mod by lia. apply Z.gcd_comm. }
  destruct (modinv_64_cases a n Ha Hn) as [[Hg (t & H64 & Ht & Hinv & _)]|[Hg H64]];
    destruct (modinv_64_cases (a mod n) n ltac:(lia) Hn)
      as [[Hg' (t' & H64' & Ht' & _ & Huniq)]|[Hg' H64']]; try lia.
  - rewrite H64, H64'. f_equal. apply Huniq; [lia|].
    rewrite Z.mul_mod_idemp_l by lia. exact Hinv.
  - rewrite H64, H64'. reflexivity.
Qed.

Lemma modinv_64_mod_witness : modinv_64 25 11 = modinv_64 (25 mod 11) 11.
Proof.
  apply (modinv_64_mod 25 11).
  - unfold max_int64. simpl. lia.
  - unfold max_int64. simpl. lia.
Defined.

(** X13. Inversion is multiplicative: for [a], [b] invertible modulo
    [n >= 2], the inverse [modinv_64] returns for [a * b mod n] is the
    product of the inverses it returns for [a] and [b], reduced modulo
    [n]. *)
Theorem modinv_64_mul (a b n : Z) :
  0 <= a <= max_int64 -> 0 <= b <= max_int64 -> 2 <= n <= max_int64 ->
  Z.gcd a n = 1 -> Z.gcd b n = 1 ->
  exists ta tb,
    modinv_64 a n = Ret ta /\ modinv_64 b n = Ret tb /\
    modinv_64 ((a * b) mod n) n = Ret ((ta * tb) mod n).
Proof.
  intros Ha Hb Hn Hga Hgb.
  destruct (modinv_64_cases a n Ha Hn) as [[_ (ta & Hta & _ & Hia & _)]|[Hg _]];
    [|lia].
  destruct (modinv_64_cases b n Hb Hn) as [[_ (tb & Htb & _ & Hib & _)]|[Hg _]];
    [|lia].
  exists ta, tb. split; [exact Hta|]. split; [exact Htb|].
  pose proof (Z.mod_pos_bound (a * b) n ltac:(lia)) as Hm.
  pose proof (Z.mod_pos_bound (ta * tb) n ltac:(lia)) as Hm'.
  assert (Hprod : ((a * b) mod n * ((ta * tb) mod n)) mod n = 1).
  { rewrite <- Z.mul_mod by lia.
    replace (a * b * (ta * tb)) with ((a * ta) * (b * tb)) by lia.
    rewrite Z.mul_mod, Hia, Hib by lia. apply Z.mod_1_l. lia. }
  destruct (modinv_64_cases ((a * b) mod n) n ltac:(lia) Hn)
    as [[_ (t & Ht & _ & _ & Huniq)]|[Hg _]].
  - rewrite Ht. f_equal. symmetry. apply Huniq; [lia|exact Hprod].
  - exfalso.
    assert (Hc : Z.gcd ((a * b) mod n) n = 1).
    { apply (inverse_coprime ((ta * tb) mod n)); [lia|].
      rewrite Z.mul_comm, Hprod, Z.mod_1_l by lia. reflexivity. }
    lia.
Qed.

Lemma modinv_64_mul_witness :
  exists ta tb,
    modinv_64 3 11 = Ret ta /\ modinv_64 5 11 = Ret tb /\
    modinv_64 ((3 * 5) mod 11) 11 = Ret ((ta * tb) mod 11).
Proof.
  apply (modinv_64_mul 3 5 11).
  - unfold max_int64. simpl. lia.
  - unfold max_int64. simpl. lia.
  - unfold max_int64. simpl. lia.
  - reflexivity.
  - reflexivity.
Defined.

(** ** [primeinv] on any modulus, and against [modexp] *)

(** X14. Below a modulus of the fixed-width path, the arbitrary-precision
    loop [_primeinv] returns what the entry point [primeinv] returns
    through [modinv_64_prime]. *)
Theorem primeinv_branches_agree (a n : Z) :
  0 <= a < n -> n <= max_int64 -> _primeinv a n = primeinv a n.
Proof.
  intros Ha Hn. rewrite (primeinv_paths_agree a n Ha Hn).
  unfold primeinv.
  rewrite !fits_64_small, !PyLong_AsLongLong_small by lia. reflexivity.
Qed.

Lemma primeinv_branches_agree_witness : _primeinv 4 9 = primeinv 4 9.
Proof.
  apply (primeinv_branches_agree 4 9).
  - lia.
  - unfold max_int64. simpl. lia.
Defined.

(** X15. [primeinv] never signals a missing inverse and does not need a
    prime modulus: for [0 <= a < n], on either path, it returns a
    coefficient [u] between [-n/2] and [n/2] with
    [a * u = gcd(a, n) (mod n)]; in particular it returns 0 for [a = 0]. *)
Theorem primeinv_bezout (a n : Z) :
  0 <= a < n -> n <= max_int64 \/ 2 ^ 64 <= n ->
  exists u,
    primeinv a n = Ret (PyLong u) /\
    (n | a * u - Z.gcd a n) /\ - n <= 2 * u <= n /\
    (a = 0 -> u = 0).
Proof.
  intros Ha Hsize.
  destruct (prime_loops_run a n Ha) as (u & r1 & Hrun & Hbig & H64).
  destruct (modinv_big_loop_run a n (euclid_fuel a n))
    as (u' & t2 & r1' & Hrun' & Hinv); try lia.
  { pose proof (euclid_fuel_enough a n). lia. }
  rewrite Hrun in Hrun'. injection Hrun' as <- <-.
  destruct (euclid_inv_final _ _ _ _ _ Hinv) as (Hr1 & Hb & Hu).
  exists u. split; [|split; [|split]].
  - unfold primeinv. destruct Hsize as [Hn|Hn].
    + rewrite !fits_64_small, !PyLong_AsLongLong_small, (H64 Hn) by lia.
      reflexivity.
    + rewrite (fits_64_large n Hn), andb_false_r.
      unfold _primeinv. rewrite Hbig. reflexivity.
  - rewrite <- Hr1. replace (a * u) with (u * a) by lia. exact Hb.
  - exact Hu.
  - intros ->. destruct (euclid_fuel_S 0 n) as [fuel Hfuel].
    rewrite Hfuel, modinv_big_loop_S in Hrun. cbn in Hrun.
    injection Hrun as <- _. reflexivity.
Qed.

Lemma primeinv_bezout_witness :
  exists u,
    primeinv 6 9 = Ret (PyLong u) /\
    (9 | 6 * u - Z.gcd 6 9) /\ - 9 <= 2 * u <= 9 /\
    (6 = 0 -> u = 0).
Proof.
  apply (primeinv_bezout 6 9).
  - lia.
  - left. unfold max_int64. simpl. lia.
Defined.

(** X16. Fermat inversion: for a prime [p >= 3] with [(p - 1)^2] within
    64 bits and [0 < g < p], raising [g] to the power [p - 2] with
    [modexp_64] gives the inverse that [modinv_64] returns. *)
Theorem modexp_is_modinv (g p : Z) :
  Z.prime p -> 3 <= p -> (p - 1) * (p - 1) <= max_int64 -> 0 < g < p ->
  exists t, modexp_64 g (p - 2) p = Ret t /\ modinv_64 g p = Ret t.
Proof.
  intros Hp Hp3 Hov Hg.
  pose proof (sqrt_bound (p - 1) ltac:(lia) Hov) as Hp32.
  change (2 ^ 32) with 4294967296 in Hp32.
  assert (Hmax : 4294967296 <= max_int64) by (unfold max_int64; simpl; lia).
  assert (Hred : (p - 2) mod (p - 1) = p - 2) by (apply Z.mod_small; lia).
  assert (H64 : modexp_64 g (p - 2) p = Ret (g ^ (p - 2) mod p)).
  { rewrite <- Hred at 2. apply modexp_64_reduced; try lia. nia. }
  pose proof (Z.mod_pos_bound (g ^ (p - 2)) p ltac:(lia)) as Hm.
  destruct (modinv_64_cases g p ltac:(lia) ltac:(lia))
    as [[_ (t & Ht & _ & _ & Huniq)]|[Hgcd _]].
  - exists t. rewrite H64, Ht. split; [|reflexivity]. f_equal.
    apply Huniq; [exact Hm|].
    rewrite Z.mul_mod_idemp_r, <- Z.pow_succ_r by lia.
    replace (Z.succ (p - 2)) with (p - 1) by lia.
    apply Z.fermat_nz; [exact Hp|]. rewrite Z.mod_small; lia.
  - rewrite (prime_coprime g p Hp Hg) in Hgcd. lia.
Qed.

Lemma modexp_is_modinv_witness :
  exists t, modexp_64 3 (11 - 2) 11 = Ret t /\ modinv_64 3 11 = Ret t.
Proof.
  apply (modexp_is_modinv 3 11).
  - exact prime_11.
  - lia.
  - unfold max_int64. simpl. lia.
  - lia.
Defined.
